(** * Byte-pair-encoding trainer: a shallow embedding of [bpe.py]

    The development follows the Python module function by function.

    - A Python [int] is a [Z].
    - A [str] is the list of its code points ([ord] of each character);
      [chr] is partial, as in Python.
    - [TokenMap] is a [dict]: an insertion-ordered association list with
      Python's assignment (overwrite in place, or append a fresh key).
    - [Frequencies] is a [collections.Counter]: the same kind of list, a
      missing key reads as 0, and [most_common(1)] keeps the first entry
      of maximal count.
    - Exceptions are a constructor of [result]; the only unbounded loop,
      the stack walk of [_expand_token], takes a fuel argument and the
      driver loop of [main] another one. *)

From Stdlib Require Import ZArith List Lia Bool Finite.
Import ListNotations.
Local Open Scope Z_scope.

(** ** Values *)

Definition TokenId := Z.

(** [@dataclass(frozen=True) class Pair]: equality is by value. *)
Record Pair : Type := mkPair { left : TokenId; right : TokenId }.

Definition pair_eqb (p q : Pair) : bool :=
  (left p =? left q) && (right p =? right q).

(** A value of the token map: [Pair | TokenId]. *)
Inductive Mapping : Type :=
| Leaf (c : TokenId)
| Merged (p : Pair).

(** [the_pair == pair] in [create_or_get_pair]: an [int] value never
    equals a [Pair]. *)
Definition mapping_is_pair (v : Mapping) (p : Pair) : bool :=
  match v with
  | Leaf _ => false
  | Merged q => pair_eqb q p
  end.

Inductive exn : Type := IndexError | KeyError | ValueError.

Inductive result (A : Type) : Type :=
| Ok (a : A)
| Raise (e : exn)
| OutOfFuel.
Arguments Ok {A} a.
Arguments Raise {A} e.
Arguments OutOfFuel {A}.

(** ** Python dictionaries, insertion ordered *)

Section Dict.
Context {K V : Type} (eqb : K -> K -> bool).

Definition dict := list (K * V).

(** [d[k]], [None] standing for [KeyError]. *)
Fixpoint dict_get (d : dict) (k : K) : option V :=
  match d with
  | [] => None
  | (k', v) :: d' => if eqb k' k then Some v else dict_get d' k
  end.

(** [d[k] = v]: an existing key keeps its position. *)
Fixpoint dict_set (d : dict) (k : K) (v : V) : dict :=
  match d with
  | [] => [(k, v)]
  | (k', v') :: d' =>
      if eqb k' k then (k', v) :: d' else (k', v') :: dict_set d' k v
  end.
End Dict.

Definition TokenMap := @dict TokenId Mapping.
Definition Frequencies := @dict Pair Z.

Definition map_get (m : TokenMap) (k : TokenId) : option Mapping :=
  dict_get Z.eqb m k.
Definition map_set (m : TokenMap) (k : TokenId) (v : Mapping) : TokenMap :=
  dict_set Z.eqb m k v.

(** [len(map)] *)
Definition len {A : Type} (l : list A) : Z := Z.of_nat (length l).

(** ** [collections.Counter] *)

(** [frequencies[p]] read: a missing key counts 0 and is not inserted. *)
Definition counter_get (f : Frequencies) (p : Pair) : Z :=
  match dict_get pair_eqb f p with
  | Some c => c
  | None => 0
  end.

(** [frequencies[p] += d]. *)
Definition counter_add (f : Frequencies) (p : Pair) (d : Z) : Frequencies :=
  dict_set pair_eqb f p (counter_get f p + d).

(** [Counter(iterable)]: one increment per element, in order. *)
Definition Counter (ps : list Pair) : Frequencies :=
  fold_left (fun f p => counter_add f p 1) ps [].

(** [max(items, key=count)], as [heapq.nlargest(1, ...)] calls it: a later
    entry wins only with a strictly larger count. *)
Fixpoint max_first (best : Pair * Z) (items : list (Pair * Z)) : Pair * Z :=
  match items with
  | [] => best
  | x :: items' =>
      if snd best <? snd x then max_first x items' else max_first best items'
  end.

(** [frequencies.most_common(1)] *)
Definition most_common_1 (f : Frequencies) : list (Pair * Z) :=
  match f with
  | [] => []
  | x :: f' => [max_first x f']
  end.

(** [most_used]: [frequencies.most_common(1)[0]]. *)
Definition most_used (f : Frequencies) : result (Pair * Z) :=
  match most_common_1 f with
  | [] => Raise IndexError
  | x :: _ => Ok x
  end.

(** ** [create_or_get_pair] *)

(** The [for ... in map.items()] scan: the first id whose value is [pair]. *)
Fixpoint find_pair (m : TokenMap) (pair : Pair) : option TokenId :=
  match m with
  | [] => None
  | (the_token, the_pair) :: m' =>
      if mapping_is_pair the_pair pair then Some the_token
      else find_pair m' pair
  end.

(** Returns the id and the (possibly mutated) map. *)
Definition create_or_get_pair (m : TokenMap) (pair : Pair)
  : TokenId * TokenMap :=
  match find_pair m pair with
  | Some the_token => (the_token, m)
  | None =>
      let next_id := len m in
      (next_id, map_set m next_id (Merged pair))
  end.

(** ** [State] *)

Record State : Type := mkState {
  tokens : list TokenId;
  frequencies : Frequencies;
  token_map : TokenMap
}.

(** [chr]: defined on [range(0x110000)], [ValueError] elsewhere. *)
Definition chr (c : Z) : option Z :=
  if (0 <=? c) && (c <? 1114112) then Some c else None.

(** The [while to_process:] loop of [_expand_token]. The head of
    [to_process] is the top of the Python stack (the end of the Python
    list); one unit of fuel per iteration. *)
Fixpoint expand_loop (fuel : nat) (m : TokenMap)
    (to_process : list TokenId) (characters : list Z) : result (list Z) :=
  match to_process with
  | [] => Ok characters
  | token_id :: to_process' =>
      match fuel with
      | O => OutOfFuel
      | S fuel' =>
          match map_get m token_id with
          | None => Raise KeyError
          | Some (Merged mapping) =>
              expand_loop fuel' m
                (left mapping :: right mapping :: to_process') characters
          | Some (Leaf mapping) =>
              match chr mapping with
              | None => Raise ValueError
              | Some ch => expand_loop fuel' m to_process' (characters ++ [ch])
              end
          end
      end
  end.

Definition _expand_token (fuel : nat) (m : TokenMap) (token : TokenId)
  : result (list Z) :=
  expand_loop fuel m [token] [].

(** The [for token in self.tokens] loop of [to_text]. *)
Fixpoint to_text_loop (fuel : nat) (m : TokenMap) (toks : list TokenId)
    (characters : list Z) : result (list Z) :=
  match toks with
  | [] => Ok characters
  | token :: toks' =>
      match _expand_token fuel m token with
      | Ok cs => to_text_loop fuel m toks' (characters ++ cs)
      | Raise e => Raise e
      | OutOfFuel => OutOfFuel
      end
  end.

Definition to_text (fuel : nat) (s : State) : result (list Z) :=
  to_text_loop fuel (token_map s) (tokens s) [].

(** ** [from_text] *)

(** [itertools.pairwise] *)
Fixpoint pairwise (l : list TokenId) : list Pair :=
  match l with
  | [] => []
  | a :: l' =>
      match l' with
      | [] => []
      | b :: _ => mkPair a b :: pairwise l'
      end
  end.

(** [{i: i for i in range(n)}] *)
Definition base_map (n : nat) : TokenMap :=
  map (fun i => (Z.of_nat i, Leaf (Z.of_nat i))) (seq 0 n).

Definition from_text (text : list Z) : State :=
  let token_map := base_map 256 in
  let frequencies := Counter (pairwise text) in
  let tokens := text in
  mkState tokens frequencies token_map.

(** ** [account_for_substitution] *)

(** [if left_token:] and [if right_token:] are truth tests: they fail on
    [None] and on the integer 0 alike. *)
Definition truthy (t : option TokenId) : option TokenId :=
  match t with
  | None => None
  | Some v => if v =? 0 then None else Some v
  end.

Definition account_for_substitution (frequencies : Frequencies)
    (left_token : option TokenId) (the_pair : Pair)
    (right_token : option TokenId) (new_token : TokenId) : Frequencies :=
  let frequencies :=
    match truthy left_token with
    | Some left_token =>
        let left_previous_pair := mkPair left_token (left the_pair) in
        let frequencies := counter_add frequencies left_previous_pair (-1) in
        let left_new_pair := mkPair left_token new_token in
        counter_add frequencies left_new_pair 1
    | None => frequencies
    end in
  let frequencies :=
    match truthy right_token with
    | Some right_token =>
        let right_previous_pair := mkPair (right the_pair) right_token in
        let frequencies := counter_add frequencies right_previous_pair (-1) in
        let right_new_pair := mkPair new_token right_token in
        counter_add frequencies right_new_pair 1
    | None => frequencies
    end in
  counter_add frequencies the_pair (-1).

(** ** [step] *)

(** [new_tokens[-1] if new_tokens else None] *)
Definition last_token (new_tokens : list TokenId) : option TokenId :=
  match rev new_tokens with
  | [] => None
  | t :: _ => Some t
  end.

(** The rewrite pass. The read cursor [old_idx] is the unread suffix
    [state.tokens[old_idx:]], here [old]. *)
Fixpoint rewrite (pair_to_replace : Pair) (old : list TokenId)
    (new_tokens : list TokenId) (new_frequencies : Frequencies)
    (new_token_map : TokenMap) : list TokenId * Frequencies * TokenMap :=
  match old with
  | [] => (new_tokens, new_frequencies, new_token_map)
  | t0 :: old1 =>
      match old1 with
      | [] => (new_tokens ++ [t0], new_frequencies, new_token_map)
      | t1 :: old2 =>
          let pair := mkPair t0 t1 in
          if negb (pair_eqb pair pair_to_replace) then
            rewrite pair_to_replace old1 (new_tokens ++ [t0])
              new_frequencies new_token_map
          else
            let '(new_token, new_token_map) :=
              create_or_get_pair new_token_map pair in
            let left_token := last_token new_tokens in
            let right_token := hd_error old2 in
            let new_frequencies :=
              account_for_substitution new_frequencies left_token pair
                right_token new_token in
            rewrite pair_to_replace old2 (new_tokens ++ [new_token])
              new_frequencies new_token_map
      end
  end.

Definition step (state : State) : result State :=
  match most_used (frequencies state) with
  | Raise e => Raise e
  | OutOfFuel => OutOfFuel
  | Ok (pair_to_replace, count) =>
      if count =? 1 then Ok state
      else
        let '(new_tokens, new_frequencies, new_token_map) :=
          rewrite pair_to_replace (tokens state) []
            (frequencies state) (token_map state) in
        Ok (mkState new_tokens new_frequencies new_token_map)
  end.

(** ** The loop of [main] *)

(** [while most_used(state.frequencies)[1] > 1: state = step(state)];
    one unit of fuel per test of the loop condition. *)
Fixpoint training_loop (fuel : nat) (state : State) : result State :=
  match fuel with
  | O => OutOfFuel
  | S fuel' =>
      match most_used (frequencies state) with
      | Raise e => Raise e
      | OutOfFuel => OutOfFuel
      | Ok (_, count) =>
          if count >? 1 then
            match step state with
            | Ok next_state => training_loop fuel' next_state
            | Raise e => Raise e
            | OutOfFuel => OutOfFuel
            end
          else Ok state
      end
  end.

(** ** [print_tokens] *)

(** [str(n)] for an [int], as the f-string [f"({token})"] renders it:
    decimal digits, most significant first, a minus sign when negative. *)
Fixpoint digits (d : Decimal.uint) : list Z :=
  match d with
  | Decimal.Nil => []
  | Decimal.D0 d' => 48 :: digits d'
  | Decimal.D1 d' => 49 :: digits d'
  | Decimal.D2 d' => 50 :: digits d'
  | Decimal.D3 d' => 51 :: digits d'
  | Decimal.D4 d' => 52 :: digits d'
  | Decimal.D5 d' => 53 :: digits d'
  | Decimal.D6 d' => 54 :: digits d'
  | Decimal.D7 d' => 55 :: digits d'
  | Decimal.D8 d' => 56 :: digits d'
  | Decimal.D9 d' => 57 :: digits d'
  end.

Definition str_int (n : Z) : list Z :=
  match Z.to_int n with
  | Decimal.Pos d => digits d
  | Decimal.Neg d => 45 :: digits d
  end.

(** What stops [print_tokens]: an exception of its lookups, or the one
    [print] raises when [sys.stdout] cannot encode a character. *)
Inductive print_exn : Type :=
| Raised (e : exn)
| UnicodeEncodeError.

Section Print.
(** [encodable c]: [sys.stdout], with its encoding and its error handler,
    accepts the character of code point [c]. *)
Variable encodable : Z -> bool.

(** One [sys.stdout.write(s)]. The value is the text written so far and
    the exception raised, if any. The string is encoded as a whole: when
    one of its characters is refused, nothing of it is written. *)
Definition write (out s : list Z) : list Z * option print_exn :=
  if forallb encodable s then (out ++ s, None)
  else (out, Some UnicodeEncodeError).

(** [print(s, end=e)]: [s] and then [e], each by one write. *)
Definition print (out s e : list Z) : list Z * option print_exn :=
  match write out s with
  | (out', None) => write out' e
  | (out', Some x) => (out', Some x)
  end.

(** The [for token in state.tokens] loop of [print_tokens]: what was
    printed before an exception stays printed. *)
Fixpoint print_tokens_loop (m : TokenMap) (toks : list TokenId)
    (out : list Z) : list Z * option print_exn :=
  match toks with
  | [] => (out, None)
  | token :: toks' =>
      match map_get m token with
      | None => (out, Some (Raised KeyError))
      | Some (Merged _) =>
          match print out ([40] ++ str_int token ++ [41]) [] with
          | (out', None) => print_tokens_loop m toks' out'
          | (out', Some x) => (out', Some x)
          end
      | Some (Leaf _) =>
          match chr token with
          | None => (out, Some (Raised ValueError))
          | Some ch =>
              match print out [ch] [] with
              | (out', None) => print_tokens_loop m toks' out'
              | (out', Some x) => (out', Some x)
              end
          end
      end
  end.

(** [print_tokens]: the line [Tokens:] and the opening quotes, the
    tokens, then a line break and the closing quotes. *)
Definition print_tokens (state : State) : list Z * option print_exn :=
  match print [] [84; 111; 107; 101; 110; 115; 58; 10; 34; 34; 34] [10] with
  | (out, Some x) => (out, Some x)
  | (out, None) =>
      match print_tokens_loop (token_map state) (tokens state) out with
      | (out', Some x) => (out', Some x)
      | (out', None) => print out' [10; 34; 34; 34] [10]
      end
  end.
End Print.

(** * Properties *)

(** ** Reachable training states *)

(** The states obtained from [from_text text] by applications of [step]
    that return. *)
Inductive reachable (text : list Z) : State -> Prop :=
| reach_init : reachable text (from_text text)
| reach_step s s' :
    reachable text s -> step s = Ok s' -> reachable text s'.

(** A text all of whose code points are below 256. *)
Definition byte_text (text : list Z) : Prop :=
  Forall (fun c => 0 <= c < 256) text.

(** Recomputing the frequency table from a token sequence, as
    [from_text] does. *)
Definition recount (toks : list TokenId) : Frequencies :=
  Counter (pairwise toks).

(** Two tables agree when they hold the same positive counts; zero and
    negative entries read as absent. *)
Definition same_counts (f g : Frequencies) : Prop :=
  forall p, Z.max 0 (counter_get f p) = Z.max 0 (counter_get g p).

(** ** Vocabulary of the properties *)

Definition keys (m : TokenMap) : list TokenId := map fst m.

(** The ids of the map are [0, 1, ..., len(map) - 1], in this order. *)
Definition range_keys (m : TokenMap) : Prop :=
  keys m = map Z.of_nat (seq 0 (length m)).

Definition extends (m m' : TokenMap) : Prop :=
  forall k v, map_get m k = Some v -> map_get m' k = Some v.

(** The number of times the pass takes its merge branch. *)
Fixpoint merges (pair_to_replace : Pair) (old : list TokenId) : nat :=
  match old with
  | [] => O
  | t0 :: old1 =>
      match old1 with
      | [] => O
      | t1 :: old2 =>
          if negb (pair_eqb (mkPair t0 t1) pair_to_replace)
          then merges pair_to_replace old1
          else S (merges pair_to_replace old2)
      end
  end.

(** The merges of one call of [step]: none when it returns early. *)
Definition step_merges (state : State) : nat :=
  match most_used (frequencies state) with
  | Ok (pair_to_replace, count) =>
      if count =? 1 then O else merges pair_to_replace (tokens state)
  | _ => O
  end.

(** The text ["ab\0ab\0"] and the state one [step] makes of it. *)
Definition nul_text : list Z := [97; 98; 0; 97; 98; 0].

Definition nul_state : State :=
  mkState [256; 0; 256; 0]
    [(mkPair 97 98, 0); (mkPair 98 0, 2); (mkPair 0 97, 1)]
    (base_map 256 ++ [(256, Merged (mkPair 97 98))]).

(** No two ids of the table map to the same pair. *)
Definition pair_injective (m : TokenMap) : Prop :=
  forall k1 k2 p,
    map_get m k1 = Some (Merged p) -> map_get m k2 = Some (Merged p) -> k1 = k2.

(** The same on the entries of the underlying list. *)
Definition entries_injective (m : TokenMap) : Prop :=
  forall k1 k2 p, In (k1, Merged p) m -> In (k2, Merged p) m -> k1 = k2.

(** [expands m k xs]: the pair tree of [m] rooted at [k] is finite and its
    leaves, left to right, are the characters [xs]. *)
Inductive expands (m : TokenMap) : TokenId -> list Z -> Prop :=
| expands_leaf k c ch :
    map_get m k = Some (Leaf c) -> chr c = Some ch -> expands m k [ch]
| expands_pair k p xs ys :
    map_get m k = Some (Merged p) ->
    expands m (left p) xs -> expands m (right p) ys ->
    expands m k (xs ++ ys).

(** The same for a token sequence, the expansions concatenated. *)
Inductive expands_all (m : TokenMap) : list TokenId -> list Z -> Prop :=
| expands_nil : expands_all m [] []
| expands_cons k ks xs ys :
    expands m k xs -> expands_all m ks ys -> expands_all m (k :: ks) (xs ++ ys).

(** Every merged id is above the two ids of its pair. *)
Definition ordered (m : TokenMap) : Prop :=
  forall k p, In (k, Merged p) m ->
    0 <= left p < k /\ 0 <= right p < k.

(** Every leaf holds a byte. *)
Definition byte_leaves (m : TokenMap) : Prop :=
  forall k c, In (k, Leaf c) m -> 0 <= c < 256.

Definition well_formed (m : TokenMap) : Prop :=
  range_keys m /\ ordered m /\ byte_leaves m.

(** The four-character text of code points 256, 97, 256, 97, and the
    state one [step] makes of it: the new id 256 is the id of its own
    left component. *)
Definition wide_text : list Z := [256; 97; 256; 97].

Definition wide_state : State :=
  mkState [256; 256]
    [(mkPair 256 97, 0); (mkPair 97 256, 0); (mkPair 256 256, 1)]
    (base_map 256 ++ [(256, Merged (mkPair 256 97))]).

(** The number of positions of [toks] where the pair [q] stands. *)
Fixpoint occurrences (q : Pair) (toks : list TokenId) : Z :=
  match toks with
  | [] => 0
  | a :: toks' =>
      match toks' with
      | [] => 0
      | b :: _ => (if pair_eqb (mkPair a b) q then 1 else 0) + occurrences q toks'
      end
  end.

(** The pair across a junction, when both sides are there. *)
Definition boundary (q : Pair) (l r : option TokenId) : Z :=
  match l, r with
  | Some a, Some b => if pair_eqb (mkPair a b) q then 1 else 0
  | _, _ => 0
  end.

Definition present (t : option TokenId) : Prop :=
  match t with
  | Some v => v <> 0
  | None => True
  end.

(** The table holds, for every pair, its number of occurrences. *)
Definition exact_counts (f : Frequencies) (toks : list TokenId) : Prop :=
  forall q, counter_get f q = occurrences q toks.

Definition no_merged_zero (m : TokenMap) : Prop :=
  len m <> 0 /\ forall p, ~ In (0, Merged p) m.

Definition without_zero (toks : list TokenId) : Prop :=
  Forall (fun t => t <> 0) toks.

Definition distinct_keys (f : Frequencies) : Prop := NoDup (map fst f).

(** The state of the pass, on a sequence without token 0. *)
Definition counted (old nt : list TokenId) (f : Frequencies) (m : TokenMap)
  : Prop :=
  range_keys m /\ no_merged_zero m /\ distinct_keys f /\
  without_zero (nt ++ old) /\ exact_counts f (nt ++ old).

(** The invariant of a run on a text without the character 0. *)
Definition counted_state (s : State) : Prop :=
  counted (tokens s) [] (frequencies s) (token_map s).

(** Replacing the occurrences of [p] by [k], left to right and without
    overlap. *)
Fixpoint replace_pairs (p : Pair) (k : TokenId) (toks : list TokenId)
  : list TokenId :=
  match toks with
  | [] => []
  | t0 :: toks1 =>
      match toks1 with
      | [] => [t0]
      | t1 :: toks2 =>
          if pair_eqb (mkPair t0 t1) p then k :: replace_pairs p k toks2
          else t0 :: replace_pairs p k toks1
      end
  end.

(** The sum of all counts of a table. *)
Definition total (f : Frequencies) : Z :=
  fold_right (fun e n => snd e + n) 0 f.

(** The first 256 entries are the byte leaves, all later ones are pairs. *)
Definition is_merged (e : TokenId * Mapping) : Prop :=
  match snd e with
  | Merged _ => True
  | Leaf _ => False
  end.

Definition bytes_then_pairs (m : TokenMap) : Prop :=
  exists later, m = base_map 256 ++ later /\ Forall is_merged later.

(** How [print_tokens] shows a token of such a table. *)
Definition shown (t : TokenId) : list Z :=
  if t <? 256 then [t] else [40] ++ str_int t ++ [41].


(** * Proofs *)

(** ** Equality tests *)

Lemma pair_eqb_eq p q : pair_eqb p q = true <-> p = q.
Proof.
  destruct p as [a b], q as [c d]; unfold pair_eqb; simpl.
  rewrite andb_true_iff, !Z.eqb_eq.
  split; [intros [-> ->]; reflexivity | intros E; inversion E; auto].
Qed.

Lemma pair_eqb_refl p : pair_eqb p p = true.
Proof. apply pair_eqb_eq; reflexivity. Qed.

Lemma pair_eqb_neq p q : pair_eqb p q = false <-> p <> q.
Proof.
  split.
  - intros E ->. rewrite pair_eqb_refl in E. discriminate.
  - intros N. destruct (pair_eqb p q) eqn:E; [|reflexivity].
    apply pair_eqb_eq in E. contradiction.
Qed.

Lemma mapping_is_pair_true v p : mapping_is_pair v p = true <-> v = Merged p.
Proof.
  destruct v as [c|q]; simpl.
  - split; discriminate.
  - rewrite pair_eqb_eq. split; [intros ->; reflexivity|intros E; inversion E; auto].
Qed.

(** ** Dictionaries *)

Section DictFacts.
Context {K V : Type} (eqb : K -> K -> bool).
Hypothesis eqb_spec : forall a b, eqb a b = true <-> a = b.

Lemma eqb_same a : eqb a a = true.
Proof. apply eqb_spec; reflexivity. Qed.

Lemma eqb_diff a b : a <> b -> eqb a b = false.
Proof.
  intros N. destruct (eqb a b) eqn:E; [|reflexivity].
  apply eqb_spec in E. contradiction.
Qed.

Lemma dict_get_In (d : @dict K V) k v :
  dict_get eqb d k = Some v -> In (k, v) d.
Proof.
  induction d as [|[k' v'] d IH]; simpl; [discriminate|].
  destruct (eqb k' k) eqn:E.
  - intros H; inversion H; subst. apply eqb_spec in E; subst. now left.
  - intros H. right. auto.
Qed.

Lemma dict_get_None (d : @dict K V) k :
  dict_get eqb d k = None <-> ~ In k (map fst d).
Proof.
  induction d as [|[k' v'] d IH]; simpl.
  - split; auto.
  - destruct (eqb k' k) eqn:E.
    + apply eqb_spec in E. subst. split; [discriminate|intros N; exfalso; auto].
    + rewrite IH. split.
      * intros N [H|H]; [subst; rewrite eqb_same in E; discriminate|auto].
      * intros N H. apply N. now right.
Qed.

Lemma dict_get_app (d d' : @dict K V) k :
  dict_get eqb (d ++ d') k =
  match dict_get eqb d k with
  | Some v => Some v
  | None => dict_get eqb d' k
  end.
Proof.
  induction d as [|[k' v'] d IH]; simpl; [reflexivity|].
  destruct (eqb k' k); auto.
Qed.

Lemma dict_set_fresh (d : @dict K V) k v :
  ~ In k (map fst d) -> dict_set eqb d k v = d ++ [(k, v)].
Proof.
  induction d as [|[k' v'] d IH]; simpl; [reflexivity|].
  intros N. rewrite eqb_diff by (intros ->; apply N; now left).
  f_equal. apply IH. intros H. apply N. now right.
Qed.

Lemma dict_get_set_same (d : @dict K V) k v :
  dict_get eqb (dict_set eqb d k v) k = Some v.
Proof.
  induction d as [|[k' v'] d IH]; simpl.
  - now rewrite eqb_same.
  - destruct (eqb k' k) eqn:E; simpl; rewrite E; auto.
Qed.

Lemma dict_get_set_other (d : @dict K V) k k' v :
  k <> k' -> dict_get eqb (dict_set eqb d k v) k' = dict_get eqb d k'.
Proof.
  intros N. induction d as [|[k0 v0] d IH]; simpl.
  - now rewrite eqb_diff.
  - destruct (eqb k0 k) eqn:E; simpl.
    + apply eqb_spec in E. subst k0. now rewrite (eqb_diff _ _ N).
    + destruct (eqb k0 k'); auto.
Qed.

Lemma dict_set_length (d : @dict K V) k v :
  (length d <= length (dict_set eqb d k v) <= S (length d))%nat.
Proof.
  induction d as [|[k' v'] d IH]; simpl; [lia|].
  destruct (eqb k' k); simpl; lia.
Qed.

Lemma In_dict_get (d : @dict K V) k v :
  NoDup (map fst d) -> In (k, v) d -> dict_get eqb d k = Some v.
Proof.
  induction d as [|[k' v'] d IH]; simpl; [tauto|].
  intros ND [H|H].
  - inversion H; subst. now rewrite eqb_same.
  - inversion ND; subst. rewrite eqb_diff.
    + auto.
    + intros ->. apply H2. apply (in_map fst) in H. exact H.
Qed.
End DictFacts.

(** ** Token maps whose ids are [0 .. len - 1] *)

Lemma extends_refl m : extends m m.
Proof. intros k v H; exact H. Qed.

Lemma extends_trans m1 m2 m3 : extends m1 m2 -> extends m2 m3 -> extends m1 m3.
Proof. intros H1 H2 k v H. auto. Qed.

Lemma range_keys_In m k :
  range_keys m -> (In k (keys m) <-> 0 <= k < len m).
Proof.
  unfold range_keys, len. intros ->. rewrite in_map_iff. split.
  - intros (i & <- & Hi). apply in_seq in Hi. lia.
  - intros Hk. exists (Z.to_nat k). split; [lia|]. apply in_seq. lia.
Qed.

Lemma range_keys_NoDup m : range_keys m -> NoDup (keys m).
Proof.
  unfold range_keys. intros ->.
  apply Injective_map_NoDup; [|apply seq_NoDup].
  intros a b H. lia.
Qed.

Lemma range_keys_fresh m : range_keys m -> ~ In (len m) (keys m).
Proof. intros R H. apply (range_keys_In _ _ R) in H. lia. Qed.

Lemma range_keys_snoc m v : range_keys m -> range_keys (m ++ [(len m, v)]).
Proof.
  unfold range_keys, keys, len. intros R.
  rewrite map_app, length_app, R. simpl.
  rewrite Nat.add_1_r, seq_S, map_app. reflexivity.
Qed.

Lemma range_keys_get m k v :
  range_keys m -> map_get m k = Some v -> 0 <= k < len m.
Proof.
  intros R H. apply (range_keys_In _ _ R).
  apply (dict_get_In _ Z.eqb_eq) in H. apply (in_map fst) in H. exact H.
Qed.

Lemma range_keys_has m k :
  range_keys m -> 0 <= k < len m -> exists v, map_get m k = Some v.
Proof.
  intros R H. apply (range_keys_In _ _ R) in H.
  destruct (map_get m k) eqn:E; [eauto|].
  apply (dict_get_None _ Z.eqb_eq) in E. contradiction.
Qed.

Lemma map_set_next m v :
  range_keys m -> map_set m (len m) v = m ++ [(len m, v)].
Proof.
  intros R. apply (dict_set_fresh _ Z.eqb_eq). exact (range_keys_fresh _ R).
Qed.

Lemma extends_snoc m v : range_keys m -> extends m (m ++ [(len m, v)]).
Proof.
  intros R k w H. unfold map_get in *. rewrite dict_get_app, H. reflexivity.
Qed.

Lemma map_get_snoc_new m v :
  range_keys m -> map_get (m ++ [(len m, v)]) (len m) = Some v.
Proof.
  intros R. unfold map_get. rewrite dict_get_app.
  destruct (dict_get Z.eqb m (len m)) eqn:E.
  - apply (range_keys_get _ _ _ R) in E. lia.
  - simpl. now rewrite Z.eqb_refl.
Qed.

Lemma map_get_snoc_inv m v k w :
  range_keys m -> map_get (m ++ [(len m, v)]) k = Some w ->
  map_get m k = Some w \/ (k = len m /\ w = v).
Proof.
  intros R. unfold map_get. rewrite dict_get_app.
  destruct (dict_get Z.eqb m k) eqn:E; [auto|].
  simpl. destruct (len m =? k) eqn:E'; [|discriminate].
  apply Z.eqb_eq in E'. intros H. inversion H. auto.
Qed.

Lemma base_map_length n : length (base_map n) = n.
Proof. unfold base_map. now rewrite length_map, length_seq. Qed.

Lemma base_map_range n : range_keys (base_map n).
Proof.
  unfold range_keys, keys. rewrite base_map_length.
  unfold base_map. rewrite map_map. reflexivity.
Qed.

Lemma base_map_In n k v :
  In (k, v) (base_map n) -> v = Leaf k /\ 0 <= k < Z.of_nat n.
Proof.
  unfold base_map. rewrite in_map_iff. intros (i & E & Hi).
  inversion E; subst. apply in_seq in Hi. split; [reflexivity|lia].
Qed.

Lemma base_map_get n k :
  0 <= k < Z.of_nat n -> map_get (base_map n) k = Some (Leaf k).
Proof.
  intros Hk. destruct (range_keys_has _ k (base_map_range n)) as [v Hv].
  - unfold len. now rewrite base_map_length.
  - rewrite Hv. apply (dict_get_In _ Z.eqb_eq) in Hv.
    apply base_map_In in Hv. destruct Hv as [-> _]. reflexivity.
Qed.

(** ** [create_or_get_pair] *)

Lemma find_pair_Some m p k : find_pair m p = Some k -> In (k, Merged p) m.
Proof.
  induction m as [|[k' v] m IH]; simpl; [discriminate|].
  destruct (mapping_is_pair v p) eqn:E.
  - apply mapping_is_pair_true in E. subst. intros H; inversion H. now left.
  - intros H. right. auto.
Qed.

Lemma find_pair_None m p k : find_pair m p = None -> ~ In (k, Merged p) m.
Proof.
  induction m as [|[k' v] m IH]; simpl; [tauto|].
  destruct (mapping_is_pair v p) eqn:E; [discriminate|].
  intros H [H'|H']; [|exact (IH H H')].
  inversion H'; subst. simpl in E. rewrite pair_eqb_refl in E. discriminate.
Qed.

Lemma find_pair_In m p k :
  In (k, Merged p) m -> exists k', find_pair m p = Some k'.
Proof.
  intros H. destruct (find_pair m p) eqn:E; [eauto|].
  exfalso. exact (find_pair_None _ _ _ E H).
Qed.

(** A second call with the same pair finds the id the first one left. *)
Lemma create_or_get_pair_again m p :
  let m' := snd (create_or_get_pair m p) in
  exists k, find_pair m' p = Some k.
Proof.
  unfold create_or_get_pair. destruct (find_pair m p) eqn:E; simpl.
  - eauto.
  - apply find_pair_In with (k := len m).
    apply (dict_get_In _ Z.eqb_eq). apply (dict_get_set_same _ Z.eqb_eq).
Qed.

Lemma create_or_get_pair_length m p :
  (length m <= length (snd (create_or_get_pair m p)) <= S (length m))%nat.
Proof.
  unfold create_or_get_pair. destruct (find_pair m p); simpl; [lia|].
  apply dict_set_length.
Qed.

(** What the call does on a map with ids [0 .. len - 1]. *)
Lemma create_or_get_pair_range m p k m' :
  range_keys m -> create_or_get_pair m p = (k, m') ->
  map_get m' k = Some (Merged p) /\
  (m' = m \/
   (find_pair m p = None /\ k = len m /\ m' = m ++ [(len m, Merged p)])).
Proof.
  intros R. unfold create_or_get_pair. destruct (find_pair m p) eqn:E.
  - intros H; inversion H; subst. split; [|now left].
    apply find_pair_Some in E.
    exact (In_dict_get _ Z.eqb_eq _ _ _ (range_keys_NoDup _ R) E).
  - rewrite (map_set_next _ _ R). intros H; inversion H; subst. split.
    + exact (map_get_snoc_new _ _ R).
    + right. auto.
Qed.

(** ** The rewrite pass of [step] *)

(** Induction following the cursor, which moves by one or by two. *)
Lemma list_pair_ind (A : Type) (P : list A -> Prop) :
  P [] -> (forall a, P [a]) ->
  (forall a b l, P (b :: l) -> P l -> P (a :: b :: l)) ->
  forall l, P l.
Proof.
  intros H0 H1 H2 l.
  assert (H : P l /\ forall a, P (a :: l)); [|exact (proj1 H)].
  induction l as [|b l [IH1 IH2]]; split; auto.
Qed.

(** A loop invariant rule for the pass: [Inv old new_tokens frequencies
    token_map] is stated on the unread suffix and the three values the
    loop builds. *)
Section RewriteInvariant.
Variable pair_to_replace : Pair.
Variable Inv : list TokenId -> list TokenId -> Frequencies -> TokenMap -> Prop.

Hypothesis keep : forall t0 t1 old2 nt f m,
  Inv (t0 :: t1 :: old2) nt f m ->
  mkPair t0 t1 <> pair_to_replace ->
  Inv (t1 :: old2) (nt ++ [t0]) f m.

Hypothesis merge : forall t0 t1 old2 nt f m new_token m',
  Inv (t0 :: t1 :: old2) nt f m ->
  mkPair t0 t1 = pair_to_replace ->
  create_or_get_pair m pair_to_replace = (new_token, m') ->
  Inv old2 (nt ++ [new_token])
    (account_for_substitution f (last_token nt) pair_to_replace
       (hd_error old2) new_token) m'.

Hypothesis final : forall t nt f m, Inv [t] nt f m -> Inv [] (nt ++ [t]) f m.

Lemma rewrite_invariant old : forall nt f m,
  Inv old nt f m ->
  forall nt' f' m',
  rewrite pair_to_replace old nt f m = (nt', f', m') -> Inv [] nt' f' m'.
Proof.
  induction old as [|t|t0 t1 old2 IH1 IH2] using list_pair_ind;
    intros nt f m HI nt' f' m'.
  - simpl. intros E; inversion E; subst. exact HI.
  - simpl. intros E; inversion E; subst. apply final. exact HI.
  - cbn [rewrite].
    destruct (pair_eqb (mkPair t0 t1) pair_to_replace) eqn:Ep; cbn [negb].
    + apply pair_eqb_eq in Ep.
      destruct (create_or_get_pair m (mkPair t0 t1)) as [k m1] eqn:Ec.
      intros E. apply IH2 in E; [exact E|].
      rewrite Ep. rewrite Ep in Ec. eapply merge; eauto.
    + apply pair_eqb_neq in Ep.
      intros E. apply IH1 in E; [exact E|].
      apply keep; auto.
Qed.
End RewriteInvariant.

Lemma merges_keep ptr t0 t1 old2 :
  mkPair t0 t1 <> ptr -> merges ptr (t0 :: t1 :: old2) = merges ptr (t1 :: old2).
Proof.
  intros N. cbn [merges]. apply pair_eqb_neq in N. now rewrite N.
Qed.

Lemma merges_merge ptr t0 t1 old2 :
  mkPair t0 t1 = ptr -> merges ptr (t0 :: t1 :: old2) = S (merges ptr old2).
Proof.
  intros E. cbn [merges]. apply pair_eqb_eq in E. now rewrite E.
Qed.

(** Each merge removes one token; nothing else changes the length. *)
Lemma rewrite_length ptr old nt f m nt' f' m' :
  rewrite ptr old nt f m = (nt', f', m') ->
  (length nt' + merges ptr old = length nt + length old)%nat.
Proof.
  intros E.
  pose (Inv := fun (old0 nt0 : list TokenId) (_ : Frequencies) (_ : TokenMap) =>
    (length nt0 + length old0 + merges ptr old
     = length nt + length old + merges ptr old0)%nat).
  assert (H : Inv [] nt' f' m').
  { apply (rewrite_invariant ptr Inv) with (old := old) (nt := nt) (f := f) (m := m);
      unfold Inv; try exact E; try lia.
    - intros t0 t1 old2 nt0 _ _ H N. rewrite (merges_keep _ _ _ _ N) in H.
      rewrite length_app. simpl in *. lia.
    - intros t0 t1 old2 nt0 _ _ k _ H Ep _. rewrite (merges_merge _ _ _ _ Ep) in H.
      rewrite length_app. simpl in *. lia.
    - intros t nt0 _ _ H. rewrite length_app. simpl in *. lia. }
  unfold Inv in H. simpl in H. lia.
Qed.

(** ** [step]: case analysis *)

Lemma most_used_empty f : most_used f = Raise IndexError <-> f = [].
Proof.
  unfold most_used, most_common_1. destruct f; split; auto; discriminate.
Qed.

Lemma most_used_total f : f <> [] -> exists p c, most_used f = Ok (p, c).
Proof.
  destruct f as [|x f]; [congruence|]. intros _.
  unfold most_used, most_common_1. destruct (max_first x f) as [p c]. eauto.
Qed.

(** [step] returns in exactly two ways. *)
Lemma step_Ok s s' :
  step s = Ok s' ->
  exists p c, most_used (frequencies s) = Ok (p, c) /\
    ((c = 1 /\ s' = s) \/
     (c <> 1 /\
      rewrite p (tokens s) [] (frequencies s) (token_map s)
      = (tokens s', frequencies s', token_map s'))).
Proof.
  unfold step. destruct (most_used (frequencies s)) as [[p c]|e|]; try discriminate.
  intros H. exists p, c. split; [reflexivity|].
  destruct (c =? 1) eqn:Ec.
  - left. apply Z.eqb_eq in Ec. inversion H. auto.
  - right. apply Z.eqb_neq in Ec. split; [exact Ec|].
    destruct (rewrite p (tokens s) [] (frequencies s) (token_map s))
      as [[nt f'] m']. inversion H. reflexivity.
Qed.

(** [step] raises only on an empty table and never runs out of fuel. *)
Lemma step_total s :
  (frequencies s = [] /\ step s = Raise IndexError) \/
  (frequencies s <> [] /\ exists s', step s = Ok s').
Proof.
  destruct (frequencies s) as [|x f] eqn:E.
  - left. split; [reflexivity|]. unfold step. rewrite E. reflexivity.
  - right. split; [discriminate|].
    destruct (most_used_total (x :: f)) as (p & c & H); [discriminate|].
    unfold step. rewrite E, H. destruct (c =? 1); [eauto|].
    destruct (rewrite p (tokens s) [] (x :: f) (token_map s)) as [[nt f'] m'].
    eauto.
Qed.

(** ** Claims settled by evaluation or by case analysis *)

Lemma step_length s s' :
  step s = Ok s' ->
  (length (tokens s') + step_merges s = length (tokens s))%nat.
Proof.
  intros H. apply step_Ok in H. destruct H as (p & c & Hm & H).
  unfold step_merges. rewrite Hm. destruct H as [[-> ->]|[Hc H]].
  - simpl. lia.
  - apply Z.eqb_neq in Hc. rewrite Hc.
    apply rewrite_length in H. simpl in H. exact H.
Qed.

(** C8. For every state on which [step] returns, the token sequence of the
    result is never longer than the one of the input; its length is the
    input's length minus the number of merges the step performs, hence
    strictly smaller as soon as one merge occurs. *)
Theorem step_shrinks s s' :
  step s = Ok s' ->
  (length (tokens s') <= length (tokens s))%nat /\
  (length (tokens s') + step_merges s = length (tokens s))%nat /\
  ((1 <= step_merges s)%nat -> (length (tokens s') < length (tokens s))%nat).
Proof.
  intros H. pose proof (step_length s s' H) as E.
  split; [lia|]. split; [exact E|]. intros Hm. lia.
Qed.

Lemma step_shrinks_witness :
  let s := from_text [97; 97; 97] in
  let s' := mkState [256; 97]
              [(mkPair 97 97, 0); (mkPair 256 97, 1)]
              (base_map 256 ++ [(256, Merged (mkPair 97 97))]) in
  (length (tokens s') <= length (tokens s))%nat /\
  (length (tokens s') + step_merges s = length (tokens s))%nat /\
  ((1 <= step_merges s)%nat -> (length (tokens s') < length (tokens s))%nat).
Proof.
  intros s s'. apply (step_shrinks s s'). vm_compute. reflexivity.
Defined.

(** C5. One [step] on [from_text "aaa"] gives the tokens [[256; ord 'a']],
    frequency 1 for [Pair(256, ord 'a')] and 0 for [Pair(ord 'a', ord 'a')],
    and a token map that is the initial one extended by exactly
    [256 -> Pair(ord 'a', ord 'a')]. *)
Theorem step_aaa :
  let s := from_text [97; 97; 97] in
  let s' := mkState [256; 97]
              [(mkPair 97 97, 0); (mkPair 256 97, 1)]
              (token_map s ++ [(256, Merged (mkPair 97 97))]) in
  step s = Ok s' /\
  tokens s' = [256; 97] /\
  counter_get (frequencies s') (mkPair 256 97) = 1 /\
  counter_get (frequencies s') (mkPair 97 97) = 0 /\
  map_get (token_map s) 256 = None /\
  map_get (token_map s') 256 = Some (Merged (mkPair 97 97)) /\
  len (token_map s') = len (token_map s) + 1.
Proof.
  intros s s'. split; [vm_compute; reflexivity|].
  repeat split; vm_compute; reflexivity.
Qed.

(** C4, as the code has it. When the most frequent pair has count
    exactly 1, [step] returns its input state; when the frequency table
    is empty, [step] raises [IndexError] and returns no state. *)
Theorem step_noop_or_raises s :
  (forall p, most_used (frequencies s) = Ok (p, 1) -> step s = Ok s) /\
  (frequencies s = [] -> step s = Raise IndexError).
Proof.
  split.
  - intros p H. unfold step. rewrite H. reflexivity.
  - intros H. unfold step. rewrite H. reflexivity.
Qed.

Lemma step_noop_or_raises_witness :
  step (from_text [97; 98; 99]) = Ok (from_text [97; 98; 99]) /\
  step (from_text []) = Raise IndexError.
Proof.
  split.
  - apply (proj1 (step_noop_or_raises (from_text [97; 98; 99])) (mkPair 97 98)).
    vm_compute. reflexivity.
  - apply (proj2 (step_noop_or_raises (from_text []))).
    reflexivity.
Defined.

(** C4 fails as stated: on the empty table of [from_text ""] and of
    [from_text "a"] the call raises, and a state whose most frequent pair
    has count 0 is rewritten, not returned. *)
Lemma step_low_count_counterexample :
  (frequencies (from_text []) = [] /\
   step (from_text []) = Raise IndexError) /\
  (frequencies (from_text [97]) = [] /\
   step (from_text [97]) = Raise IndexError) /\
  (let s := mkState [97; 97] [(mkPair 97 97, 0)] (base_map 256) in
   most_used (frequencies s) = Ok (mkPair 97 97, 0) /\
   exists s', step s = Ok s' /\ tokens s' = [256] /\ s' <> s).
Proof.
  repeat split.
  eexists. split; [vm_compute; reflexivity|]. split; [reflexivity|].
  intros E. apply (f_equal tokens) in E. discriminate.
Qed.

(** ** A neighbour with id 0 *)

Lemma step_nul_text : step (from_text nul_text) = Ok nul_state.
Proof. vm_compute. reflexivity. Qed.

Lemma step_nul_state : step nul_state = Ok nul_state.
Proof. vm_compute. reflexivity. Qed.

Lemma most_used_nul_state :
  most_used (frequencies nul_state) = Ok (mkPair 98 0, 2).
Proof. reflexivity. Qed.

(** With neighbours other than 0 the five updates are all made. *)
Lemma account_for_substitution_nonzero f l p r n :
  l <> 0 -> r <> 0 ->
  account_for_substitution f (Some l) p (Some r) n =
  counter_add
    (counter_add
       (counter_add
          (counter_add (counter_add f (mkPair l (left p)) (-1))
             (mkPair l n) 1)
          (mkPair (right p) r) (-1))
       (mkPair n r) 1)
    p (-1).
Proof.
  intros Hl Hr. unfold account_for_substitution, truthy.
  apply Z.eqb_neq in Hl, Hr. rewrite Hl, Hr. reflexivity.
Qed.

(** C3, at the failing input. A neighbour whose id is 0 is treated as no
    neighbour: [account_for_substitution] then only decrements the
    replaced pair. In the step on ["ab\0ab\0"] the right neighbour of both
    merges is 0: the count of [(98, 0)] stays 2 and [(256, 0)] is never
    counted, although the new sequence holds [(256, 0)] twice. *)
Theorem zero_neighbour_not_accounted :
  (forall f p n,
      account_for_substitution f (Some 0) p (Some 0) n = counter_add f p (-1)) /\
  (forall f p n, account_for_substitution f None p None n = counter_add f p (-1)) /\
  step (from_text nul_text) = Ok nul_state /\
  tokens nul_state = [256; 0; 256; 0] /\
  counter_get (frequencies (from_text nul_text)) (mkPair 98 0) = 2 /\
  counter_get (frequencies nul_state) (mkPair 98 0) = 2 /\
  counter_get (frequencies nul_state) (mkPair 256 0) = 0.
Proof.
  repeat split.
Qed.

(** C1, at the failing input. After one step on ["ab\0ab\0"] the
    maintained table and a recount of the new sequence differ: the pair
    [(98, 0)] is counted 2 and occurs nowhere, the pair [(256, 0)] occurs
    twice and is not counted. *)
Theorem frequencies_drift :
  reachable nul_text nul_state /\
  counter_get (frequencies nul_state) (mkPair 98 0) = 2 /\
  counter_get (recount (tokens nul_state)) (mkPair 98 0) = 0 /\
  counter_get (frequencies nul_state) (mkPair 256 0) = 0 /\
  counter_get (recount (tokens nul_state)) (mkPair 256 0) = 2 /\
  ~ same_counts (frequencies nul_state) (recount (tokens nul_state)).
Proof.
  split.
  { apply reach_step with (s := from_text nul_text);
      [apply reach_init | exact step_nul_text]. }
  repeat split.
  intros H. specialize (H (mkPair 98 0)). vm_compute in H. discriminate.
Qed.

Lemma training_loop_nul_state fuel : training_loop fuel nul_state = OutOfFuel.
Proof.
  induction fuel as [|fuel IH]; [reflexivity|].
  cbn [training_loop]. rewrite most_used_nul_state.
  change (2 >? 1) with true. cbv iota.
  rewrite step_nul_state. exact IH.
Qed.

(** The loop on a text with the character of code point 0, here
    ["ab\0ab\0"]: a process argument cannot hold this character, but
    [from_text] accepts it. After the first step the most frequent pair
    is [(98, 0)], with count 2, the sequence holds no such pair, and
    [step] returns the same state again and again. *)
Theorem training_loop_diverges :
  forall fuel, training_loop fuel (from_text nul_text) = OutOfFuel.
Proof.
  intros [|fuel]; [reflexivity|].
  cbn [training_loop].
  replace (most_used (frequencies (from_text nul_text)))
    with (@Ok (Pair * Z) (mkPair 97 98, 2)) by reflexivity.
  change (2 >? 1) with true. cbv iota.
  rewrite step_nul_text. apply training_loop_nul_state.
Qed.

(** ** The merge table along a training run *)

Lemma entries_injective_get m : entries_injective m -> pair_injective m.
Proof.
  intros H k1 k2 p H1 H2.
  apply (dict_get_In _ Z.eqb_eq) in H1, H2. exact (H _ _ _ H1 H2).
Qed.

Lemma entries_injective_snoc m p :
  entries_injective m -> find_pair m p = None ->
  entries_injective (m ++ [(len m, Merged p)]).
Proof.
  intros Hi Hf k1 k2 q H1 H2.
  apply in_app_or in H1, H2.
  destruct H1 as [H1|[H1|[]]], H2 as [H2|[H2|[]]].
  - exact (Hi _ _ _ H1 H2).
  - inversion H2; subst. exfalso. exact (find_pair_None _ _ _ Hf H1).
  - inversion H1; subst. exfalso. exact (find_pair_None _ _ _ Hf H2).
  - inversion H1; inversion H2; subst. reflexivity.
Qed.

(** What the rewrite pass does to a table with ids [0 .. len - 1]. *)
Lemma rewrite_table ptr old nt f m nt' f' m' :
  range_keys m -> entries_injective m ->
  rewrite ptr old nt f m = (nt', f', m') ->
  range_keys m' /\ entries_injective m' /\
  (m' = m \/ m' = m ++ [(len m, Merged ptr)]).
Proof.
  intros R I E.
  pose (Inv := fun (_ _ : list TokenId) (_ : Frequencies) (m0 : TokenMap) =>
    range_keys m0 /\ entries_injective m0 /\
    (m0 = m \/ m0 = m ++ [(len m, Merged ptr)])).
  refine (rewrite_invariant ptr Inv _ _ _ old nt f m _ nt' f' m' E);
    unfold Inv; auto.
  intros _ _ _ _ _ m0 k m1 (R0 & I0 & Hm) _ Hc.
  destruct (create_or_get_pair_range _ _ _ _ R0 Hc) as [_ [ -> | (Hf & _ & ->) ]].
  - auto.
  - destruct Hm as [ -> | -> ].
    + repeat split; [apply range_keys_snoc | apply entries_injective_snoc |]; auto.
    + exfalso. apply (find_pair_None _ _ (len m) Hf).
      apply in_or_app. right. now left.
Qed.

Lemma step_table s s' :
  range_keys (token_map s) -> entries_injective (token_map s) ->
  step s = Ok s' ->
  range_keys (token_map s') /\ entries_injective (token_map s') /\
  (token_map s' = token_map s \/
   exists p,
     token_map s' = token_map s ++ [(len (token_map s), Merged p)]).
Proof.
  intros R I H. apply step_Ok in H. destruct H as (p & c & _ & [ [_ ->] | [_ H] ]).
  - auto.
  - destruct (rewrite_table _ _ _ _ _ _ _ _ R I H) as (R' & I' & [E|E]); eauto.
Qed.

Lemma base_map_entries_injective n : entries_injective (base_map n).
Proof.
  intros k1 k2 p H _. apply base_map_In in H. destruct H as [H _]. discriminate.
Qed.

Lemma reachable_table text s :
  reachable text s ->
  range_keys (token_map s) /\ entries_injective (token_map s).
Proof.
  induction 1 as [|s s' _ [R I] Hs].
  - split; [apply base_map_range | apply base_map_entries_injective].
  - destruct (step_table _ _ R I Hs) as (R' & I' & _). auto.
Qed.

(** C6. In every state reachable from [from_text text], no two distinct
    ids of the merge table map to the same pair; [create_or_get_pair]
    called with a pair that has an id returns that id and the table
    unchanged; and a step leaves the table as it is or appends one entry. *)
Theorem merge_table_injective text s :
  reachable text s ->
  pair_injective (token_map s) /\
  (forall k p, map_get (token_map s) k = Some (Merged p) ->
               create_or_get_pair (token_map s) p = (k, token_map s)) /\
  (forall s', step s = Ok s' ->
     token_map s' = token_map s \/
     exists p,
       token_map s' = token_map s ++ [(len (token_map s), Merged p)]).
Proof.
  intros H. destruct (reachable_table _ _ H) as [R I].
  split; [exact (entries_injective_get _ I)|]. split.
  - intros k p Hk. apply (dict_get_In _ Z.eqb_eq) in Hk.
    destruct (find_pair_In _ _ _ Hk) as [k' Hf].
    unfold create_or_get_pair. rewrite Hf.
    apply find_pair_Some in Hf. rewrite (I _ _ _ Hf Hk). reflexivity.
  - intros s' Hs. exact (proj2 (proj2 (step_table _ _ R I Hs))).
Qed.

Lemma merge_table_injective_witness :
  let s := mkState [256; 256]
             [(mkPair 97 97, 0); (mkPair 256 97, 0); (mkPair 256 256, 1)]
             (base_map 256 ++ [(256, Merged (mkPair 97 97))]) in
  pair_injective (token_map s) /\
  (forall k p, map_get (token_map s) k = Some (Merged p) ->
               create_or_get_pair (token_map s) p = (k, token_map s)) /\
  (forall s', step s = Ok s' ->
     token_map s' = token_map s \/
     exists p,
       token_map s' = token_map s ++ [(len (token_map s), Merged p)]).
Proof.
  intros s. apply (merge_table_injective [97; 97; 97; 97] s).
  apply reach_step with (s := from_text [97; 97; 97; 97]);
    [apply reach_init | vm_compute; reflexivity].
Defined.

(** ** Decoding *)

Lemma expands_key m k xs : expands m k xs -> exists v, map_get m k = Some v.
Proof. destruct 1; eauto. Qed.

Lemma expands_extends m m' k xs :
  extends m m' -> expands m k xs -> expands m' k xs.
Proof.
  intros He H. induction H.
  - eapply expands_leaf; eauto.
  - eapply expands_pair; eauto.
Qed.

Lemma expands_all_extends m m' ks xs :
  extends m m' -> expands_all m ks xs -> expands_all m' ks xs.
Proof.
  intros He H. induction H; constructor; eauto using expands_extends.
Qed.

Lemma expands_all_app m ks1 ks2 xs1 xs2 :
  expands_all m ks1 xs1 -> expands_all m ks2 xs2 ->
  expands_all m (ks1 ++ ks2) (xs1 ++ xs2).
Proof.
  intros H1 H2. induction H1; simpl; [exact H2|].
  rewrite <- app_assoc. constructor; auto.
Qed.

Lemma expands_all_app_inv m ks1 ks2 xs :
  expands_all m (ks1 ++ ks2) xs ->
  exists xs1 xs2,
    xs = xs1 ++ xs2 /\ expands_all m ks1 xs1 /\ expands_all m ks2 xs2.
Proof.
  revert xs. induction ks1 as [|k ks1 IH]; simpl; intros xs H.
  - exists [], xs. repeat split; [constructor | exact H].
  - inversion H as [|k' ks' ys zs Hk Hr]; subst.
    destruct (IH _ Hr) as (xs1 & xs2 & -> & H1 & H2).
    exists (ys ++ xs1), xs2. rewrite app_assoc.
    repeat split; [constructor|]; auto.
Qed.

Lemma expands_all_In m ks xs k :
  expands_all m ks xs -> In k ks -> exists ys, expands m k ys.
Proof.
  induction 1; simpl; [tauto|]. intros [<-|Hk]; eauto.
Qed.

(** The stack walk computes the expansion, within a fuel that depends on
    the tree only. *)
Lemma expand_loop_expands m k xs :
  expands m k xs ->
  exists n, forall fuel to_process characters,
    expand_loop (n + fuel) m (k :: to_process) characters
    = expand_loop fuel m to_process (characters ++ xs).
Proof.
  induction 1 as [k c ch Hk Hc | k p xs ys Hk _ [n1 IH1] _ [n2 IH2]].
  - exists 1%nat. intros fuel st cs. simpl. rewrite Hk, Hc. reflexivity.
  - exists (S (n1 + n2)). intros fuel st cs.
    cbn [Nat.add expand_loop]. rewrite Hk.
    rewrite <- Nat.add_assoc, IH1, IH2, app_assoc. reflexivity.
Qed.

Lemma expand_token_expands m k xs :
  expands m k xs ->
  exists n, forall fuel, (n <= fuel)%nat -> _expand_token fuel m k = Ok xs.
Proof.
  intros H. destruct (expand_loop_expands _ _ _ H) as [n Hn].
  exists n. intros fuel Hf. unfold _expand_token.
  replace fuel with (n + (fuel - n))%nat by lia.
  rewrite Hn. destruct (fuel - n)%nat; reflexivity.
Qed.

Lemma to_text_loop_expands m ks xs :
  expands_all m ks xs ->
  exists n, forall fuel, (n <= fuel)%nat ->
    forall characters, to_text_loop fuel m ks characters = Ok (characters ++ xs).
Proof.
  induction 1 as [|k ks xs ys Hk _ [n2 IH]].
  - exists O. intros fuel _ cs. simpl. now rewrite app_nil_r.
  - destruct (expand_token_expands _ _ _ Hk) as [n1 H1].
    exists (Nat.max n1 n2). intros fuel Hf cs. cbn [to_text_loop].
    rewrite H1 by lia. rewrite IH by lia. now rewrite app_assoc.
Qed.

Lemma to_text_expands s text :
  expands_all (token_map s) (tokens s) text ->
  exists n, forall fuel, (n <= fuel)%nat -> to_text fuel s = Ok text.
Proof.
  intros H. destruct (to_text_loop_expands _ _ _ H) as [n Hn].
  exists n. intros fuel Hf. unfold to_text. now rewrite Hn.
Qed.

(** ** Well-formed merge tables *)

Lemma chr_byte c : 0 <= c < 256 -> chr c = Some c.
Proof.
  intros H. unfold chr.
  destruct (0 <=? c) eqn:E1; [|apply Z.leb_gt in E1; lia].
  destruct (c <? 1114112) eqn:E2; [|apply Z.ltb_ge in E2; lia].
  reflexivity.
Qed.

(** Ids that only point downwards make every tree finite. *)
Lemma well_formed_expands m :
  well_formed m ->
  forall k, 0 <= k < len m -> exists xs, expands m k xs.
Proof.
  intros (R & O & L).
  assert (H : forall n k, 0 <= k < Z.of_nat n -> k < len m ->
                          exists xs, expands m k xs).
  { induction n as [|n IH]; intros k Hk Hm; [lia|].
    destruct (range_keys_has _ k R) as [v Hv]; [lia|].
    pose proof (dict_get_In _ Z.eqb_eq _ _ _ Hv) as Hin.
    destruct v as [c|p].
    - exists [c]. eapply expands_leaf; [exact Hv|].
      apply chr_byte. exact (L _ _ Hin).
    - destruct (O _ _ Hin) as [Hl Hr].
      destruct (IH (left p)) as [xs Hxs]; [lia|lia|].
      destruct (IH (right p)) as [ys Hys]; [lia|lia|].
      exists (xs ++ ys). eapply expands_pair; eauto. }
  intros k Hk. apply (H (Z.to_nat (len m)) k); lia.
Qed.

Lemma well_formed_base : well_formed (base_map 256).
Proof.
  split; [apply base_map_range|]. split.
  - intros k p H. apply base_map_In in H. destruct H; discriminate.
  - intros k c H. apply base_map_In in H. destruct H as [E H].
    inversion E; subst. exact H.
Qed.

Lemma well_formed_snoc m p :
  well_formed m ->
  0 <= left p < len m -> 0 <= right p < len m ->
  well_formed (m ++ [(len m, Merged p)]).
Proof.
  intros (R & O & L) Hl Hr. split; [apply range_keys_snoc; exact R|]. split.
  - intros k q H. apply in_app_or in H. destruct H as [H|[H|[]]].
    + exact (O _ _ H).
    + inversion H; subst. auto.
  - intros k c H. apply in_app_or in H. destruct H as [H|[H|[]]].
    + exact (L _ _ H).
    + discriminate.
Qed.

(** ** Decoding along a training run *)

(** The pass keeps the table well formed and the decoded text unchanged. *)
Lemma rewrite_decodes text ptr old nt f m nt' f' m' :
  well_formed m -> expands_all m (nt ++ old) text ->
  rewrite ptr old nt f m = (nt', f', m') ->
  well_formed m' /\ expands_all m' nt' text.
Proof.
  intros W D E.
  pose (Inv := fun (old0 nt0 : list TokenId) (_ : Frequencies) (m0 : TokenMap) =>
    well_formed m0 /\ expands_all m0 (nt0 ++ old0) text).
  assert (H : Inv [] nt' f' m').
  { refine (rewrite_invariant ptr Inv _ _ _ old nt f m _ nt' f' m' E);
      unfold Inv; auto.
    - intros t0 t1 old2 nt0 _ m0 [W0 D0] _. split; [exact W0|].
      rewrite <- app_assoc. exact D0.
    - intros t0 t1 old2 nt0 _ m0 k m1 [W0 D0] Ep Hc.
      pose proof W0 as (R0 & _).
      destruct (create_or_get_pair_range _ _ _ _ R0 Hc) as [Hk Hm].
      destruct (expands_all_app_inv _ _ _ _ D0) as (xs1 & xs2 & -> & D1 & D2).
      inversion D2 as [|? ? ys0 zs0 H0 D3]; subst.
      inversion D3 as [|? ? ys1 zs1 H1 D4]; subst.
      assert (B0 : 0 <= t0 < len m0).
      { destruct (expands_key _ _ _ H0) as [v Hv]. exact (range_keys_get _ _ _ R0 Hv). }
      assert (B1 : 0 <= t1 < len m0).
      { destruct (expands_key _ _ _ H1) as [v Hv]. exact (range_keys_get _ _ _ R0 Hv). }
      assert (X : well_formed m1 /\ extends m0 m1).
      { destruct Hm as [ -> | (_ & _ & ->) ].
        - split; [exact W0 | apply extends_refl].
        - split; [apply well_formed_snoc; auto | apply extends_snoc; exact R0]. }
      destruct X as [W1 X]. split; [exact W1|].
      rewrite <- app_assoc. apply expands_all_app.
      + exact (expands_all_extends _ _ _ _ X D1).
      + simpl. rewrite app_assoc. constructor.
        * eapply expands_pair; [exact Hk | |]; simpl;
            eapply expands_extends; eauto.
        * exact (expands_all_extends _ _ _ _ X D4).
    - intros t nt0 _ m0 [W0 D0]. split; [exact W0|].
      rewrite <- app_assoc. exact D0. }
  unfold Inv in H. now rewrite app_nil_r in H.
Qed.

Lemma from_text_decodes text :
  byte_text text -> expands_all (base_map 256) text text.
Proof.
  induction 1 as [|c text Hc _ IH]; [constructor|].
  change (c :: text) with ([c] ++ text) at 2. constructor; [|exact IH].
  eapply expands_leaf; [apply base_map_get; exact Hc | apply chr_byte; exact Hc].
Qed.

Lemma reachable_decodes text s :
  byte_text text -> reachable text s ->
  well_formed (token_map s) /\ expands_all (token_map s) (tokens s) text.
Proof.
  intros B. induction 1 as [|s s' _ [W D] Hs].
  - split; [apply well_formed_base | apply from_text_decodes; exact B].
  - apply step_Ok in Hs. destruct Hs as (p & c & _ & [ [_ ->] | [_ Hs] ]); [auto|].
    exact (rewrite_decodes text p (tokens s) [] _ _ _ _ _ W D Hs).
Qed.

(** C2, for byte texts. If every code point of [text] is below 256, then
    in every state reachable from [from_text text], the initial one
    included, [to_text] returns [text]. *)
Theorem to_text_left_inverse text s :
  byte_text text -> reachable text s ->
  exists n, forall fuel, (n <= fuel)%nat -> to_text fuel s = Ok text.
Proof.
  intros B H. apply to_text_expands. exact (proj2 (reachable_decodes _ _ B H)).
Qed.

Lemma to_text_left_inverse_witness :
  exists n, forall fuel, (n <= fuel)%nat ->
    to_text fuel (mkState [256; 97]
                    [(mkPair 97 97, 0); (mkPair 256 97, 1)]
                    (base_map 256 ++ [(256, Merged (mkPair 97 97))]))
    = Ok [97; 97; 97].
Proof.
  apply (to_text_left_inverse [97; 97; 97]).
  - repeat constructor; lia.
  - apply reach_step with (s := from_text [97; 97; 97]);
      [apply reach_init | vm_compute; reflexivity].
Defined.

(** C2 fails as stated: the one-character text of code point 300 is not
    decoded back, whatever the fuel; the lookup of token 300 raises. *)
Lemma to_text_left_inverse_counterexample :
  (forall fuel, to_text fuel (from_text [300]) <> Ok [300]) /\
  (forall fuel, to_text (S fuel) (from_text [300]) = Raise KeyError).
Proof.
  split.
  - intros [|fuel]; vm_compute; discriminate.
  - intros fuel. vm_compute. reflexivity.
Qed.

(** C7, for byte texts. If every code point of [text] is below 256, then
    in every reachable state each merged id is strictly greater than both
    ids of its pair, every token of the sequence is an id of the table,
    and expanding any id of the table returns, given enough fuel. *)
Theorem expansion_terminates text s :
  byte_text text -> reachable text s ->
  (forall k p, map_get (token_map s) k = Some (Merged p) ->
               left p < k /\ right p < k) /\
  (forall t, In t (tokens s) -> 0 <= t < len (token_map s)) /\
  (forall k, 0 <= k < len (token_map s) ->
     exists xs n, forall fuel, (n <= fuel)%nat ->
       _expand_token fuel (token_map s) k = Ok xs).
Proof.
  intros B H. destruct (reachable_decodes _ _ B H) as [W D].
  pose proof W as (R & O & _). split; [|split].
  - intros k p Hk. apply (dict_get_In _ Z.eqb_eq) in Hk.
    destruct (O _ _ Hk). lia.
  - intros t Ht. destruct (expands_all_In _ _ _ _ D Ht) as [ys Hy].
    destruct (expands_key _ _ _ Hy) as [v Hv].
    exact (range_keys_get _ _ _ R Hv).
  - intros k Hk. destruct (well_formed_expands _ W k Hk) as [xs Hx].
    exists xs. apply expand_token_expands. exact Hx.
Qed.

Lemma expansion_terminates_witness :
  let s := mkState [256; 257; 257]
    [(mkPair 97 97, 0); (mkPair 97 98, 0); (mkPair 98 97, 0);
     (mkPair 256 97, 0); (mkPair 256 256, 0); (mkPair 256 98, 0);
     (mkPair 98 256, 0); (mkPair 256 257, 1); (mkPair 257 256, 0);
     (mkPair 257 257, 1)]
    (base_map 256 ++ [(256, Merged (mkPair 97 97));
                      (257, Merged (mkPair 256 98))]) in
  (forall k p, map_get (token_map s) k = Some (Merged p) ->
               left p < k /\ right p < k) /\
  (forall t, In t (tokens s) -> 0 <= t < len (token_map s)) /\
  (forall k, 0 <= k < len (token_map s) ->
     exists xs n, forall fuel, (n <= fuel)%nat ->
       _expand_token fuel (token_map s) k = Ok xs).
Proof.
  intros s. apply (expansion_terminates [97; 97; 97; 97; 98; 97; 97; 98] s).
  - repeat constructor; lia.
  - eapply reach_step;
      [eapply reach_step; [apply reach_init | vm_compute; reflexivity]
      | vm_compute; reflexivity].
Defined.

Lemma expand_loop_wide fuel : forall to_process characters,
  expand_loop fuel (token_map wide_state) (256 :: to_process) characters
  = OutOfFuel.
Proof.
  induction fuel as [|fuel IH]; intros st cs; [reflexivity|].
  cbn [expand_loop].
  replace (map_get (token_map wide_state) 256)
    with (Some (Merged (mkPair 256 97))) by (vm_compute; reflexivity).
  apply IH.
Qed.

(** C7 fails as stated: from the text of code points 256, 97, 256, 97
    (its first character is above the byte range) one step reaches a state
    where id 256 maps to the pair [(256, 97)], so it is not greater than
    its left component, and expanding the token 256 of the sequence never
    returns. *)
Lemma expansion_terminates_counterexample :
  reachable wide_text wide_state /\
  In 256 (tokens wide_state) /\
  map_get (token_map wide_state) 256 = Some (Merged (mkPair 256 97)) /\
  ~ (left (mkPair 256 97) < 256) /\
  (forall fuel, _expand_token fuel (token_map wide_state) 256 = OutOfFuel).
Proof.
  split.
  { apply reach_step with (s := from_text wide_text);
      [apply reach_init | vm_compute; reflexivity]. }
  split; [now left|]. split; [vm_compute; reflexivity|].
  split; [simpl; lia|].
  intros fuel. apply expand_loop_wide.
Qed.

Lemma to_text_from_text_bytes fuel text : forall characters,
  byte_text text ->
  to_text_loop (S fuel) (base_map 256) text characters
  = Ok (characters ++ text).
Proof.
  induction text as [|c text IH]; intros cs B.
  - simpl. now rewrite app_nil_r.
  - inversion B as [|? ? Hc B']; subst.
    cbn [to_text_loop _expand_token expand_loop].
    rewrite (base_map_get 256 c Hc), (chr_byte c Hc).
    replace (expand_loop fuel (base_map 256) [] ([] ++ [c])) with (@Ok (list Z) [c])
      by (destruct fuel; reflexivity).
    rewrite IH by exact B'. rewrite <- app_assoc. reflexivity.
Qed.

(** C10. [from_text] checks no code point. When all code points of the
    text are below 256, every token it produces has an entry in the token
    map and [to_text] returns the text. For the one-character text of
    code point 256, [from_text] builds a state and [to_text] of it raises
    [KeyError]: the token has no entry. *)
Theorem from_text_unchecked :
  (forall text, byte_text text ->
     (forall t, In t (tokens (from_text text)) ->
        exists v, map_get (token_map (from_text text)) t = Some v) /\
     (forall fuel, to_text (S fuel) (from_text text) = Ok text)) /\
  (exists text c,
     In c text /\ 256 <= c < 1114112 /\
     tokens (from_text text) = text /\
     map_get (token_map (from_text text)) c = None /\
     forall fuel, to_text (S fuel) (from_text text) = Raise KeyError).
Proof.
  split.
  - intros text B. split.
    + intros t Ht. exists (Leaf t). apply base_map_get.
      unfold byte_text in B. rewrite Forall_forall in B. exact (B t Ht).
    + intros fuel. unfold to_text. simpl.
      exact (to_text_from_text_bytes fuel text [] B).
  - exists [256], 256. split; [now left|]. split; [lia|].
    split; [reflexivity|]. split; [vm_compute; reflexivity|].
    intros fuel. vm_compute. reflexivity.
Qed.

Lemma from_text_unchecked_witness :
  (forall t, In t (tokens (from_text [104; 105])) ->
     exists v, map_get (token_map (from_text [104; 105])) t = Some v) /\
  (forall fuel, to_text (S fuel) (from_text [104; 105]) = Ok [104; 105]).
Proof.
  apply (proj1 from_text_unchecked [104; 105]).
  repeat constructor; lia.
Defined.

(** ** Counting adjacent pairs *)

Lemma counter_get_add f p d q :
  counter_get (counter_add f p d) q
  = counter_get f q + (if pair_eqb p q then d else 0).
Proof.
  unfold counter_add. destruct (pair_eqb p q) eqn:E.
  - apply pair_eqb_eq in E. subst q. unfold counter_get at 1.
    rewrite (dict_get_set_same _ pair_eqb_eq). reflexivity.
  - apply pair_eqb_neq in E. unfold counter_get at 1.
    rewrite (dict_get_set_other _ pair_eqb_eq) by exact E.
    fold (counter_get f q). lia.
Qed.

Lemma counter_get_Counter ps q : forall f,
  counter_get (fold_left (fun f p => counter_add f p 1) ps f) q
  = counter_get f q
    + fold_right (fun p n => (if pair_eqb p q then 1 else 0) + n) 0 ps.
Proof.
  induction ps as [|p ps IH]; intros f; simpl; [lia|].
  rewrite IH, counter_get_add. lia.
Qed.

Lemma occurrences_pairwise q toks :
  fold_right (fun p n => (if pair_eqb p q then 1 else 0) + n) 0 (pairwise toks)
  = occurrences q toks.
Proof.
  induction toks as [|a toks IH]; [reflexivity|].
  destruct toks as [|b toks]; [reflexivity|].
  cbn [pairwise occurrences fold_right]. cbn [pairwise] in IH.
  rewrite IH. reflexivity.
Qed.

(** A recount reads, for each pair, its number of occurrences. *)
Lemma counter_get_recount q toks :
  counter_get (recount toks) q = occurrences q toks.
Proof.
  unfold recount, Counter. rewrite counter_get_Counter, occurrences_pairwise.
  reflexivity.
Qed.

Lemma last_token_snoc l x : last_token (l ++ [x]) = Some x.
Proof. unfold last_token. rewrite rev_app_distr. reflexivity. Qed.

Lemma last_token_cons a b l : last_token (a :: b :: l) = last_token (b :: l).
Proof.
  unfold last_token. cbn [rev].
  destruct (rev l ++ [b]) eqn:E; [|reflexivity].
  destruct (rev l); discriminate.
Qed.

Lemma last_token_In l x : last_token l = Some x -> In x l.
Proof.
  unfold last_token. destruct (rev l) as [|y r] eqn:E; [discriminate|].
  intros H; inversion H; subst. apply in_rev. rewrite E. now left.
Qed.

Lemma hd_error_In (l : list TokenId) x : hd_error l = Some x -> In x l.
Proof. destruct l; simpl; [discriminate|]. intros H; inversion H. now left. Qed.

Lemma occurrences_app q l1 l2 :
  occurrences q (l1 ++ l2)
  = occurrences q l1 + boundary q (last_token l1) (hd_error l2)
    + occurrences q l2.
Proof.
  induction l1 as [|a l1 IH]; [simpl; lia|].
  destruct l1 as [|b l1].
  - destruct l2 as [|c l2]; [reflexivity|].
    cbn [app occurrences last_token rev hd_error boundary]. lia.
  - rewrite last_token_cons. cbn [app occurrences] in *. rewrite IH. lia.
Qed.

(** What one merge does to the count of [q]. *)
Lemma occurrences_merge q nt t0 t1 old2 k :
  occurrences q ((nt ++ [k]) ++ old2)
  = occurrences q (nt ++ t0 :: t1 :: old2)
    - boundary q (last_token nt) (Some t0)
    + boundary q (last_token nt) (Some k)
    - boundary q (Some t1) (hd_error old2)
    + boundary q (Some k) (hd_error old2)
    - (if pair_eqb (mkPair t0 t1) q then 1 else 0).
Proof.
  rewrite <- app_assoc. rewrite !occurrences_app.
  cbn [app hd_error].
  change (t0 :: t1 :: old2) with ([t0; t1] ++ old2).
  change (k :: old2) with ([k] ++ old2).
  rewrite !occurrences_app.
  cbn [occurrences last_token rev app hd_error boundary]. lia.
Qed.

Lemma truthy_present t : present t -> truthy t = t.
Proof.
  destruct t as [v|]; simpl; [|reflexivity].
  intros H. apply Z.eqb_neq in H. now rewrite H.
Qed.

(** With neighbours other than 0, the table follows the counts. *)
Lemma counter_get_account f l p r n q :
  present l -> present r ->
  counter_get (account_for_substitution f l p r n) q
  = counter_get f q
    - boundary q l (Some (left p)) + boundary q l (Some n)
    - boundary q (Some (right p)) r + boundary q (Some n) r
    - (if pair_eqb p q then 1 else 0).
Proof.
  intros Hl Hr. unfold account_for_substitution.
  rewrite (truthy_present _ Hl), (truthy_present _ Hr).
  destruct l as [a|], r as [b|]; cbn [boundary];
    rewrite ?counter_get_add;
    repeat match goal with |- context [pair_eqb ?x ?y] =>
      destruct (pair_eqb x y) end; lia.
Qed.

(** ** Training runs on texts without the character of code point 0 *)

Lemma exact_counts_same f toks :
  exact_counts f toks -> same_counts f (recount toks).
Proof. intros H q. now rewrite counter_get_recount, H. Qed.

Section DictKeys.
Context {K V : Type} (eqb : K -> K -> bool).
Hypothesis eqb_spec : forall a b, eqb a b = true <-> a = b.

Lemma dict_set_keys_In (d : @dict K V) k v k' :
  In k' (map fst (dict_set eqb d k v)) -> In k' (map fst d) \/ k' = k.
Proof.
  induction d as [|[k0 v0] d IH]; simpl.
  - intros [H|[]]; auto.
  - destruct (eqb k0 k); simpl; [tauto|].
    intros [H|H]; [auto|]. destruct (IH H); auto.
Qed.

Lemma dict_set_NoDup (d : @dict K V) k v :
  NoDup (map fst d) -> NoDup (map fst (dict_set eqb d k v)).
Proof.
  induction d as [|[k0 v0] d IH]; simpl; intros N.
  - constructor; [intros []|constructor].
  - destruct (eqb k0 k) eqn:E; simpl; [exact N|].
    inversion N as [|? ? Hn N']; subst. constructor; [|auto].
    intros H. apply dict_set_keys_In in H. destruct H as [H|H]; [auto|].
    subst k0. rewrite (eqb_same _ eqb_spec) in E. discriminate.
Qed.

Lemma dict_set_nonempty (d : @dict K V) k v : dict_set eqb d k v <> [].
Proof. destruct d as [|[k0 v0] d]; simpl; [|destruct (eqb k0 k)]; discriminate. Qed.
End DictKeys.

Lemma counter_add_distinct f p d :
  distinct_keys f -> distinct_keys (counter_add f p d).
Proof. apply (dict_set_NoDup _ pair_eqb_eq). Qed.

Lemma account_distinct f l p r n :
  distinct_keys f -> distinct_keys (account_for_substitution f l p r n).
Proof.
  intros H. unfold account_for_substitution.
  destruct (truthy l), (truthy r); repeat apply counter_add_distinct; exact H.
Qed.

Lemma account_nonempty f l p r n : account_for_substitution f l p r n <> [].
Proof. unfold account_for_substitution, counter_add. apply dict_set_nonempty. Qed.

Lemma Counter_distinct ps : distinct_keys (Counter ps).
Proof.
  unfold Counter.
  assert (H : forall f, distinct_keys f ->
            distinct_keys (fold_left (fun f p => counter_add f p 1) ps f)).
  { induction ps as [|p ps IH]; intros f Hf; simpl; [exact Hf|].
    apply IH, counter_add_distinct, Hf. }
  apply H. constructor.
Qed.

Lemma max_first_In x items :
  max_first x items = x \/ In (max_first x items) items.
Proof.
  revert x. induction items as [|y items IH]; intros x; simpl; [now left|].
  destruct (snd x <? snd y).
  - destruct (IH y) as [->|H]; auto.
  - destruct (IH x) as [->|H]; auto.
Qed.

(** The count [most_used] returns is the one the table holds. *)
Lemma most_used_count f p c :
  distinct_keys f -> most_used f = Ok (p, c) -> counter_get f p = c.
Proof.
  intros N H. unfold counter_get.
  rewrite (In_dict_get _ pair_eqb_eq f p c N); [reflexivity|].
  unfold most_used, most_common_1 in H. destruct f as [|x f]; [discriminate|].
  pose proof (max_first_In x f) as Hm.
  assert (E : max_first x f = (p, c)) by congruence.
  rewrite E in Hm. destruct Hm as [Hx|Hin].
  - left. symmetry. exact Hx.
  - right. exact Hin.
Qed.

(** A pair that occurs is merged at least once by the pass. *)
Lemma occurrences_merges p toks :
  0 < occurrences p toks -> (1 <= merges p toks)%nat.
Proof.
  induction toks as [|a toks IH]; [simpl; lia|].
  destruct toks as [|b toks]; [simpl; lia|].
  change (occurrences p (a :: b :: toks))
    with ((if pair_eqb (mkPair a b) p then 1 else 0) + occurrences p (b :: toks)).
  destruct (pair_eqb (mkPair a b) p) eqn:E.
  - rewrite (merges_merge _ _ _ _ (proj1 (pair_eqb_eq _ _) E)). lia.
  - rewrite (merges_keep _ _ _ _ (proj1 (pair_eqb_neq _ _) E)).
    intros H. apply IH. lia.
Qed.

Lemma no_merged_zero_base : no_merged_zero (base_map 256).
Proof.
  split; [unfold len; rewrite base_map_length; lia|].
  intros p H. apply base_map_In in H. destruct H; discriminate.
Qed.

Lemma no_merged_zero_snoc m p :
  no_merged_zero m -> no_merged_zero (m ++ [(len m, Merged p)]).
Proof.
  intros [Hl Hz]. split.
  - unfold len in *. rewrite length_app. simpl. lia.
  - intros q H. apply in_app_or in H. destruct H as [H|[H|[]]].
    + exact (Hz _ H).
    + inversion H. contradiction.
Qed.

Lemma rewrite_counted ptr old nt f m nt' f' m' :
  counted old nt f m ->
  rewrite ptr old nt f m = (nt', f', m') ->
  counted [] nt' f' m'.
Proof.
  intros H0 E.
  refine (rewrite_invariant ptr counted _ _ _ old nt f m H0 nt' f' m' E);
    clear; unfold counted.
  - intros t0 t1 old2 nt0 f0 m0 H _. now rewrite <- app_assoc.
  - intros t0 t1 old2 nt0 f0 m0 k m1 (R0 & Z0 & N0 & W0 & C0) Ep Hc.
    destruct (create_or_get_pair_range _ _ _ _ R0 Hc) as [Hk Hm].
    assert (X : range_keys m1 /\ no_merged_zero m1).
    { destruct Hm as [ -> | (_ & _ & ->) ]; [auto|].
      split; [apply range_keys_snoc | apply no_merged_zero_snoc]; auto. }
    destruct X as [R1 Z1].
    assert (Nk : k <> 0).
    { intros ->. apply (dict_get_In _ Z.eqb_eq) in Hk. exact (proj2 Z1 _ Hk). }
    unfold without_zero in *. rewrite Forall_forall in W0.
    assert (Pl : present (last_token nt0)).
    { destruct (last_token nt0) as [l|] eqn:El; [|exact I].
      apply W0, in_or_app. left. exact (last_token_In _ _ El). }
    assert (Pr : present (hd_error old2)).
    { destruct (hd_error old2) as [r|] eqn:Er; [|exact I].
      apply W0, in_or_app. right. right. right. exact (hd_error_In _ _ Er). }
    split; [exact R1|]. split; [exact Z1|]. split; [|split].
    + apply account_distinct. exact N0.
    + rewrite Forall_forall. intros x Hx.
      rewrite <- app_assoc in Hx. apply in_app_or in Hx.
      destruct Hx as [Hx|[Hx|Hx]].
      * apply W0, in_or_app. now left.
      * now subst x.
      * apply W0, in_or_app. right. right. now right.
    + intros q. rewrite (counter_get_account _ _ _ _ _ _ Pl Pr), C0.
      rewrite (occurrences_merge q nt0 t0 t1 old2 k).
      rewrite <- Ep. cbn [left right]. lia.
  - intros t nt0 f0 m0 H. now rewrite <- app_assoc.
Qed.

Lemma from_text_counted text :
  without_zero text -> counted_state (from_text text).
Proof.
  intros W.
  split; [apply base_map_range|]. split; [apply no_merged_zero_base|].
  split; [apply Counter_distinct|]. split; [exact W|].
  intros q. apply counter_get_recount.
Qed.

Lemma step_counted s s' :
  counted_state s -> step s = Ok s' -> counted_state s'.
Proof.
  intros H Hs. apply step_Ok in Hs.
  destruct Hs as (p & c & _ & [ [_ ->] | [_ Hs] ]); [exact H|].
  apply (rewrite_counted _ _ _ _ _ _ _ _ H) in Hs.
  unfold counted_state, counted in *. now rewrite app_nil_r in Hs.
Qed.

Lemma reachable_counted text s :
  without_zero text -> reachable text s -> counted_state s.
Proof.
  intros W. induction 1 as [|s s' _ IH Hs].
  - exact (from_text_counted _ W).
  - exact (step_counted _ _ IH Hs).
Qed.

(** X18. On a text without the character of code point 0, the maintained
    table of every reachable state holds exactly the counts of a recount:
    the invariant of claim C1 away from the defect. *)
Theorem frequencies_exact_without_zero text s :
  without_zero text -> reachable text s ->
  exact_counts (frequencies s) (tokens s) /\
  same_counts (frequencies s) (recount (tokens s)).
Proof.
  intros W H. destruct (reachable_counted _ _ W H) as (_ & _ & _ & _ & C).
  simpl in C. split; [exact C | exact (exact_counts_same _ _ C)].
Qed.

Lemma frequencies_exact_without_zero_witness :
  let s := mkState [256; 257; 257]
    [(mkPair 97 97, 0); (mkPair 97 98, 0); (mkPair 98 97, 0);
     (mkPair 256 97, 0); (mkPair 256 256, 0); (mkPair 256 98, 0);
     (mkPair 98 256, 0); (mkPair 256 257, 1); (mkPair 257 256, 0);
     (mkPair 257 257, 1)]
    (base_map 256 ++ [(256, Merged (mkPair 97 97));
                      (257, Merged (mkPair 256 98))]) in
  exact_counts (frequencies s) (tokens s) /\
  same_counts (frequencies s) (recount (tokens s)).
Proof.
  intros s.
  apply (frequencies_exact_without_zero [97; 97; 97; 97; 98; 97; 97; 98] s).
  - repeat constructor; lia.
  - eapply reach_step;
      [eapply reach_step; [apply reach_init | vm_compute; reflexivity]
      | vm_compute; reflexivity].
Defined.

(** A step taken by the loop of [main] shortens the sequence. *)
Lemma step_progress s p c :
  counted_state s -> most_used (frequencies s) = Ok (p, c) -> 1 < c ->
  exists s', step s = Ok s' /\ (length (tokens s') < length (tokens s))%nat.
Proof.
  intros H Hm Hc. pose proof H as (_ & _ & N & _ & C). simpl in C.
  destruct (step_total s) as [[E _]|[_ [s' Hs]]].
  - rewrite E in Hm. discriminate.
  - exists s'. split; [exact Hs|].
    pose proof (step_length s s' Hs) as El.
    assert (Hg : (1 <= step_merges s)%nat); [|lia].
    unfold step_merges. rewrite Hm.
    replace (c =? 1) with false by (symmetry; apply Z.eqb_neq; lia).
    apply occurrences_merges. rewrite <- C, (most_used_count _ _ _ N Hm). lia.
Qed.

Lemma training_loop_counted n : forall s,
  counted_state s -> (length (tokens s) <= n)%nat ->
  exists r, r <> OutOfFuel /\
    forall fuel, (S n <= fuel)%nat -> training_loop fuel s = r.
Proof.
  induction n as [|n IH]; intros s H Hn.
  - destruct (most_used (frequencies s)) as [[p c]|e|] eqn:Hm.
    + destruct (Z.gtb_spec c 1) as [Hc|Hc].
      * destruct (step_progress _ _ _ H Hm) as (s' & _ & Hl); lia.
      * exists (Ok s). split; [discriminate|]. intros [|fuel] Hf; [lia|].
        cbn [training_loop]. rewrite Hm.
        destruct (Z.gtb_spec c 1); [lia|reflexivity].
    + exists (Raise e). split; [discriminate|]. intros [|fuel] Hf; [lia|].
      cbn [training_loop]. now rewrite Hm.
    + unfold most_used in Hm. destruct (most_common_1 (frequencies s)); discriminate.
  - destruct (most_used (frequencies s)) as [[p c]|e|] eqn:Hm.
    + destruct (Z.gtb_spec c 1) as [Hc|Hc].
      * destruct (step_progress _ _ _ H Hm) as (s' & Hs & Hl); [lia|].
        destruct (IH s' (step_counted _ _ H Hs)) as (r & Hr & Hf); [lia|].
        exists r. split; [exact Hr|]. intros [|fuel] Hfuel; [lia|].
        cbn [training_loop]. rewrite Hm.
        destruct (Z.gtb_spec c 1); [|lia]. rewrite Hs. apply Hf. lia.
      * exists (Ok s). split; [discriminate|]. intros [|fuel] Hf; [lia|].
        cbn [training_loop]. rewrite Hm.
        destruct (Z.gtb_spec c 1); [lia|reflexivity].
    + exists (Raise e). split; [discriminate|]. intros [|fuel] Hf; [lia|].
      cbn [training_loop]. now rewrite Hm.
    + unfold most_used in Hm. destruct (most_common_1 (frequencies s)); discriminate.
Qed.

(** X19. On a text without the character of code point 0, the loop of
    [main] ends, normally or by raising, within [len(text) + 1] tests of
    its condition. *)
Theorem training_loop_ends_without_zero text :
  without_zero text ->
  exists r, r <> OutOfFuel /\
    forall fuel, (S (length text) <= fuel)%nat ->
      training_loop fuel (from_text text) = r.
Proof.
  intros W. apply training_loop_counted.
  - exact (from_text_counted _ W).
  - simpl. lia.
Qed.

Lemma training_loop_ends_without_zero_witness :
  exists r, r <> OutOfFuel /\
    forall fuel, (S (length [97; 97; 97; 97]) <= fuel)%nat ->
      training_loop fuel (from_text [97; 97; 97; 97]) = r.
Proof.
  apply (training_loop_ends_without_zero [97; 97; 97; 97]).
  repeat constructor; lia.
Defined.

(** * Further properties of the code *)

(** ** [create_or_get_pair] on arbitrary maps *)

Lemma find_pair_map_set m p k :
  find_pair m p = None -> find_pair (map_set m k (Merged p)) p = Some k.
Proof.
  unfold map_set. induction m as [|[k0 v0] m IH]; simpl.
  - intros _. now rewrite pair_eqb_refl.
  - destruct (mapping_is_pair v0 p) eqn:E; [discriminate|]. intros H.
    destruct (k0 =? k) eqn:Ek; simpl.
    + rewrite pair_eqb_refl. apply Z.eqb_eq in Ek. now subst.
    + rewrite E. auto.
Qed.

Lemma create_or_get_pair_twice m p :
  create_or_get_pair (snd (create_or_get_pair m p)) p
  = create_or_get_pair m p.
Proof.
  unfold create_or_get_pair at 2 3. destruct (find_pair m p) eqn:E; simpl.
  - unfold create_or_get_pair. now rewrite E.
  - unfold create_or_get_pair. now rewrite (find_pair_map_set _ _ _ E).
Qed.

(** X1. A second call of [create_or_get_pair] with the same pair, on the
    map the first call left, returns the same id and changes nothing;
    this holds for every map, also when the first call overwrote an
    entry. *)
Theorem create_or_get_pair_idempotent m p :
  let '(k, m') := create_or_get_pair m p in
  create_or_get_pair m' p = (k, m').
Proof.
  pose proof (create_or_get_pair_twice m p) as H.
  destruct (create_or_get_pair m p) as [k m']. exact H.
Qed.

(** X2. For a pair that has no id yet, the new id is [len(map)] and looking
    it up gives the pair. Every other id keeps its value. The map grows
    by one entry when [len(map)] was not an id, and otherwise the entry of
    [len(map)] is overwritten and the size stays. *)
Theorem create_or_get_pair_new m p :
  find_pair m p = None ->
  let '(k, m') := create_or_get_pair m p in
  k = len m /\
  map_get m' k = Some (Merged p) /\
  (forall k', k' <> k -> map_get m' k' = map_get m k') /\
  (map_get m k = None -> m' = m ++ [(k, Merged p)]) /\
  (map_get m k <> None -> length m' = length m).
Proof.
  intros E. unfold create_or_get_pair. rewrite E.
  split; [reflexivity|]. split; [apply (dict_get_set_same _ Z.eqb_eq)|].
  split; [|split].
  - intros k' N. apply (dict_get_set_other _ Z.eqb_eq). congruence.
  - intros H. apply (dict_set_fresh _ Z.eqb_eq).
    apply (dict_get_None _ Z.eqb_eq). exact H.
  - unfold map_get, map_set. generalize (len m) as k.
    induction m as [|[k0 v0] m' IH]; intros k; simpl; [congruence|].
    destruct (k0 =? k); simpl; [reflexivity|].
    intros H. f_equal. apply IH; [|exact H].
    simpl in E. destruct (mapping_is_pair v0 p); [discriminate|exact E].
Qed.

Lemma create_or_get_pair_new_witness :
  let '(k, m') := create_or_get_pair [(1, Leaf 1)] (mkPair 1 1) in
  k = len [(1, Leaf 1)] /\
  map_get m' k = Some (Merged (mkPair 1 1)) /\
  (forall k', k' <> k -> map_get m' k' = map_get [(1, Leaf 1)] k') /\
  (map_get [(1, Leaf 1)] k = None -> m' = [(1, Leaf 1)] ++ [(k, Merged (mkPair 1 1))]) /\
  (map_get [(1, Leaf 1)] k <> None -> length m' = length [(1, Leaf 1)]).
Proof.
  apply (create_or_get_pair_new [(1, Leaf 1)] (mkPair 1 1)). reflexivity.
Defined.

(** ** [most_used] *)

Lemma max_first_split x items y :
  max_first x items = y ->
  exists before after,
    x :: items = before ++ y :: after /\
    (forall z, In z before -> snd z < snd y) /\
    (forall z, In z after -> snd z <= snd y).
Proof.
  revert x. induction items as [|z items IH]; intros x; simpl.
  - intros <-. exists [], []. repeat split; intros ? [].
  - destruct (snd x <? snd z) eqn:E.
    + apply Z.ltb_lt in E. intros H.
      destruct (IH _ H) as (b & a & Eq & Hb & Ha).
      assert (Hz : snd z <= snd y).
      { assert (Hin : In z (b ++ y :: a)) by (rewrite <- Eq; now left).
        apply in_app_or in Hin. destruct Hin as [Hin|[->|Hin]].
        - specialize (Hb _ Hin). lia.
        - lia.
        - exact (Ha _ Hin). }
      exists (x :: b), a. rewrite Eq. repeat split; auto.
      intros w [<-|Hw]; [lia|auto].
    + apply Z.ltb_ge in E. intros H.
      destruct (IH _ H) as (b & a & Eq & Hb & Ha).
      destruct b as [|x' b]; simpl in Eq; injection Eq as E1 E2.
      * exists [], (z :: a). subst x items. repeat split; [intros ? []|].
        intros w [<-|Hw]; [exact E|auto].
      * exists (x :: z :: b), a. subst x' items. repeat split; auto.
        intros w [<-|[<-|Hw]].
        -- apply Hb. now left.
        -- assert (snd x < snd y) by (apply Hb; now left). lia.
        -- apply Hb. now right.
Qed.

(** X3. [most_used] raises [IndexError] exactly on the empty table.
    Otherwise it returns an entry of the table whose count is maximal,
    and the first such entry: every entry before it has a strictly
    smaller count. *)
Theorem most_used_first_maximum f :
  (most_used f = Raise IndexError <-> f = []) /\
  (forall p c, most_used f = Ok (p, c) ->
     exists before after,
       f = before ++ (p, c) :: after /\
       (forall z, In z before -> snd z < c) /\
       (forall z, In z after -> snd z <= c)).
Proof.
  split; [apply most_used_empty|].
  intros p c H. destruct f as [|x f]; [discriminate|].
  unfold most_used, most_common_1 in H.
  assert (E : max_first x f = (p, c)) by congruence.
  exact (max_first_split _ _ _ E).
Qed.

Lemma most_used_first_maximum_witness :
  exists before after,
    [(mkPair 1 2, 1); (mkPair 2 3, 2); (mkPair 3 4, 2)]
    = before ++ (mkPair 2 3, 2) :: after /\
    (forall z, In z before -> snd z < 2) /\
    (forall z, In z after -> snd z <= 2).
Proof.
  apply (proj2 (most_used_first_maximum
                  [(mkPair 1 2, 1); (mkPair 2 3, 2); (mkPair 3 4, 2)])).
  reflexivity.
Defined.

(** ** [from_text] and short texts *)

Lemma pairwise_nil text : pairwise text = [] <-> (length text < 2)%nat.
Proof.
  destruct text as [|a [|b text]]; simpl; split; try lia; try reflexivity;
    discriminate.
Qed.

Lemma pairwise_length text : length (pairwise text) = pred (length text).
Proof.
  induction text as [|a text IH]; [reflexivity|].
  destruct text as [|b text]; [reflexivity|].
  cbn [pairwise length] in *. rewrite IH. reflexivity.
Qed.

Lemma fold_counter_add_nonempty ps : forall f,
  f <> [] -> fold_left (fun f p => counter_add f p 1) ps f <> [].
Proof.
  induction ps as [|p ps IH]; intros f H; simpl; [exact H|].
  apply IH. apply dict_set_nonempty.
Qed.

Lemma Counter_nil ps : Counter ps = [] <-> ps = [].
Proof.
  split; [|intros ->; reflexivity].
  destruct ps as [|p ps]; [reflexivity|]. unfold Counter. simpl. intros H.
  exfalso. revert H. apply fold_counter_add_nonempty. discriminate.
Qed.

Lemma from_text_empty_table text :
  frequencies (from_text text) = [] <-> (length text < 2)%nat.
Proof. simpl. rewrite Counter_nil. apply pairwise_nil. Qed.

Lemma dict_set_In (f : Frequencies) p v q c :
  In (q, c) (dict_set pair_eqb f p v) -> (q = p /\ c = v) \/ In (q, c) f.
Proof.
  induction f as [|[k0 v0] f IH]; simpl.
  - intros [H|[]]. inversion H. auto.
  - destruct (pair_eqb k0 p) eqn:E; simpl.
    + apply pair_eqb_eq in E. subst k0.
      intros [H|H]; [inversion H; auto|auto].
    + intros [H|H]; [auto|]. destruct (IH H); auto.
Qed.

Lemma counter_get_positive f p :
  (forall q c, In (q, c) f -> 1 <= c) -> 0 <= counter_get f p.
Proof.
  intros H. unfold counter_get. destruct (dict_get pair_eqb f p) eqn:E; [|lia].
  apply (dict_get_In _ pair_eqb_eq) in E. specialize (H _ _ E). lia.
Qed.

Lemma Counter_positive ps q c : In (q, c) (Counter ps) -> 1 <= c.
Proof.
  unfold Counter.
  assert (H : forall f, (forall q c, In (q, c) f -> 1 <= c) ->
            forall q c,
              In (q, c) (fold_left (fun f p => counter_add f p 1) ps f) ->
              1 <= c).
  { induction ps as [|p ps IH]; intros f Hf; simpl; [exact Hf|].
    apply IH. intros q' c' Hin. apply dict_set_In in Hin.
    destruct Hin as [[_ ->]|Hin]; [|exact (Hf _ _ Hin)].
    pose proof (counter_get_positive f p Hf). lia. }
  apply H. intros ? ? [].
Qed.

(** X4. The table [from_text] builds reads, for every pair, the number of
    positions of the text where the pair stands; it has one entry per
    distinct pair, each with a count of at least 1; and it is empty
    exactly when the text has fewer than two characters. *)
Theorem from_text_table text :
  (forall q, counter_get (frequencies (from_text text)) q = occurrences q text) /\
  distinct_keys (frequencies (from_text text)) /\
  (forall q c, In (q, c) (frequencies (from_text text)) -> 1 <= c) /\
  (frequencies (from_text text) = [] <-> (length text < 2)%nat).
Proof.
  split; [intros q; apply counter_get_recount|].
  split; [apply Counter_distinct|].
  split; [apply Counter_positive | apply from_text_empty_table].
Qed.

Lemma from_text_table_witness :
  1 <= 2 /\ In (mkPair 97 97, 2) (frequencies (from_text [97; 97; 97])).
Proof.
  split.
  - apply (proj1 (proj2 (proj2 (from_text_table [97; 97; 97])))
             (mkPair 97 97) 2). now left.
  - now left.
Defined.

Lemma rewrite_nonempty ptr old nt f m nt' f' m' :
  f <> [] -> rewrite ptr old nt f m = (nt', f', m') -> f' <> [].
Proof.
  intros H E.
  refine (rewrite_invariant ptr (fun _ _ f0 _ => f0 <> []) _ _ _
            old nt f m H nt' f' m' E); auto.
  intros. apply account_nonempty.
Qed.

Lemma step_nonempty s s' :
  frequencies s <> [] -> step s = Ok s' -> frequencies s' <> [].
Proof.
  intros H Hs. apply step_Ok in Hs.
  destruct Hs as (p & c & _ & [ [_ ->] | [_ Hs] ]); [exact H|].
  exact (rewrite_nonempty _ _ _ _ _ _ _ _ H Hs).
Qed.

Lemma training_loop_never_raises fuel : forall s e,
  frequencies s <> [] -> training_loop fuel s <> Raise e.
Proof.
  induction fuel as [|fuel IH]; intros s e H; [discriminate|].
  cbn [training_loop].
  destruct (most_used_total _ H) as (p & c & Hm). rewrite Hm.
  destruct (c >? 1); [|discriminate].
  destruct (step_total s) as [[E _]|[_ [s' Hs]]]; [contradiction|].
  rewrite Hs. apply IH. exact (step_nonempty _ _ H Hs).
Qed.

(** X5. [step] applied to [from_text text], and the loop of [main]
    started on it, raise [IndexError] exactly when the text has fewer
    than two characters; the loop then raises at its first test. *)
Theorem index_error_on_short_text text :
  (step (from_text text) = Raise IndexError <-> (length text < 2)%nat) /\
  ((exists fuel, training_loop fuel (from_text text) = Raise IndexError)
   <-> (length text < 2)%nat) /\
  ((length text < 2)%nat ->
   forall fuel, training_loop (S fuel) (from_text text) = Raise IndexError).
Proof.
  assert (A : (length text < 2)%nat ->
              forall fuel, training_loop (S fuel) (from_text text)
                           = Raise IndexError).
  { intros H fuel. apply from_text_empty_table in H.
    cbn [training_loop]. rewrite H. reflexivity. }
  split; [|split; [|exact A]].
  - rewrite <- from_text_empty_table. split.
    + intros H. destruct (step_total (from_text text)) as [[E _]|[_ [s' Hs]]];
        [exact E | congruence].
    + intros H. unfold step. rewrite H. reflexivity.
  - split.
    + intros [fuel H]. apply from_text_empty_table.
      destruct (frequencies (from_text text)) eqn:E; [reflexivity|].
      exfalso. apply (training_loop_never_raises fuel (from_text text) IndexError).
      * rewrite E. discriminate.
      * exact H.
    + intros H. exists 1%nat. apply A. exact H.
Qed.

Lemma index_error_on_short_text_witness :
  training_loop 1 (from_text [97]) = Raise IndexError.
Proof.
  apply (proj2 (proj2 (index_error_on_short_text [97]))). simpl. lia.
Defined.

(** ** Steps that change nothing *)

Lemma counter_get_absent f p :
  ~ In p (map fst f) -> counter_get f p = 0.
Proof.
  intros H. unfold counter_get.
  now rewrite (proj2 (dict_get_None _ pair_eqb_eq f p) H).
Qed.

Lemma Counter_distinct_pairs ps :
  NoDup ps -> Counter ps = map (fun p => (p, 1)) ps.
Proof.
  unfold Counter.
  assert (H : forall qs, NoDup (qs ++ ps) ->
            fold_left (fun f p => counter_add f p 1) ps
              (map (fun p => (p, 1)) qs)
            = map (fun p => (p, 1)) (qs ++ ps)).
  { induction ps as [|p ps IH]; intros qs N; simpl.
    - now rewrite app_nil_r.
    - assert (Hp : ~ In p (map fst (map (fun p => (p, 1)) qs))).
      { rewrite map_map, map_id. apply NoDup_remove_2 in N.
        intros H. apply N, in_or_app. now left. }
      unfold counter_add at 2.
      rewrite (dict_set_fresh _ pair_eqb_eq _ _ _ Hp), (counter_get_absent _ _ Hp).
      change [(p, 0 + 1)] with (map (fun p => (p, 1)) [p]).
      rewrite <- map_app, IH; rewrite <- app_assoc; [reflexivity|exact N]. }
  intros N. exact (H [] N).
Qed.

Lemma max_first_ones x ps :
  max_first (x, 1) (map (fun p => (p, 1)) ps) = (x, 1).
Proof. induction ps as [|p ps IH]; simpl; [reflexivity|exact IH]. Qed.

(** X6. When no adjacent pair of the text occurs twice (and the text has
    at least two characters), [step] returns [from_text text] itself:
    the case [test_noop] samples with ["abc"]. *)
Theorem step_noop_on_distinct_pairs text :
  NoDup (pairwise text) -> (2 <= length text)%nat ->
  step (from_text text) = Ok (from_text text).
Proof.
  intros N L. unfold step. cbn [frequencies from_text].
  rewrite (Counter_distinct_pairs _ N).
  destruct (pairwise text) as [|p ps] eqn:E.
  - apply pairwise_nil in E. lia.
  - cbn [map most_used most_common_1]. rewrite max_first_ones. reflexivity.
Qed.

Lemma step_noop_on_distinct_pairs_witness :
  step (from_text [97; 98; 97; 99]) = Ok (from_text [97; 98; 97; 99]).
Proof.
  apply (step_noop_on_distinct_pairs [97; 98; 97; 99]).
  - repeat constructor; simpl; intuition discriminate.
  - simpl. lia.
Defined.

Lemma occurrences_nonneg p toks : 0 <= occurrences p toks.
Proof.
  induction toks as [|a toks IH]; [simpl; lia|].
  destruct toks as [|b toks]; [simpl; lia|].
  change (occurrences p (a :: b :: toks))
    with ((if pair_eqb (mkPair a b) p then 1 else 0) + occurrences p (b :: toks)).
  destruct (pair_eqb (mkPair a b) p); lia.
Qed.

Lemma merges_occurrences p toks :
  (1 <= merges p toks)%nat -> 0 < occurrences p toks.
Proof.
  induction toks as [|a|a b toks IH1 IH2] using list_pair_ind;
    [simpl; lia | simpl; lia |].
  change (occurrences p (a :: b :: toks))
    with ((if pair_eqb (mkPair a b) p then 1 else 0) + occurrences p (b :: toks)).
  pose proof (occurrences_nonneg p (b :: toks)).
  destruct (pair_eqb (mkPair a b) p) eqn:E.
  - lia.
  - rewrite (merges_keep _ _ _ _ (proj1 (pair_eqb_neq _ _) E)).
    intros H0. apply IH1 in H0. lia.
Qed.

Lemma rewrite_keep ptr t0 t1 old2 nt f m :
  mkPair t0 t1 <> ptr ->
  rewrite ptr (t0 :: t1 :: old2) nt f m
  = rewrite ptr (t1 :: old2) (nt ++ [t0]) f m.
Proof.
  intros N. apply pair_eqb_neq in N. cbn [rewrite]. rewrite N. reflexivity.
Qed.

Lemma rewrite_merge ptr t0 t1 old2 nt f m :
  mkPair t0 t1 = ptr ->
  rewrite ptr (t0 :: t1 :: old2) nt f m
  = rewrite ptr old2 (nt ++ [fst (create_or_get_pair m ptr)])
      (account_for_substitution f (last_token nt) ptr (hd_error old2)
         (fst (create_or_get_pair m ptr)))
      (snd (create_or_get_pair m ptr)).
Proof.
  intros E. cbn [rewrite]. rewrite E, pair_eqb_refl. cbn [negb].
  destruct (create_or_get_pair m ptr). reflexivity.
Qed.

Lemma rewrite_no_merge ptr old : forall nt f m,
  merges ptr old = O -> rewrite ptr old nt f m = (nt ++ old, f, m).
Proof.
  induction old as [|a|a b old IH1 IH2] using list_pair_ind; intros nt f m.
  - intros _. simpl. now rewrite app_nil_r.
  - intros _. reflexivity.
  - destruct (pair_eqb (mkPair a b) ptr) eqn:E.
    + apply pair_eqb_eq in E. rewrite (merges_merge _ _ _ _ E). discriminate.
    + apply pair_eqb_neq in E.
      rewrite (merges_keep _ _ _ _ E), (rewrite_keep _ _ _ _ _ _ _ E).
      intros H. rewrite (IH1 _ _ _ H), <- app_assoc. reflexivity.
Qed.

(** X7. Let [(p, c)] be what [most_used] returns. [step] returns a state
    equal to its input exactly when [c] is 1 or [p] occurs nowhere in the
    token sequence; in every other case the sequence gets shorter. *)
Theorem step_fixed_point s s' p c :
  most_used (frequencies s) = Ok (p, c) -> step s = Ok s' ->
  (s' = s <-> c = 1 \/ occurrences p (tokens s) = 0) /\
  (s' <> s -> (length (tokens s') < length (tokens s))%nat).
Proof.
  intros Hm Hs.
  pose proof (step_length _ _ Hs) as L.
  unfold step_merges in L. rewrite Hm in L.
  assert (B : c = 1 \/ occurrences p (tokens s) = 0 -> s' = s).
  { unfold step in Hs. rewrite Hm in Hs. intros [->|H0].
    - simpl in Hs. congruence.
    - destruct (c =? 1); [congruence|].
      rewrite rewrite_no_merge in Hs.
      + destruct s; simpl in *. congruence.
      + pose proof (merges_occurrences p (tokens s)). lia. }
  assert (F : ~ (c = 1 \/ occurrences p (tokens s) = 0) ->
              (length (tokens s') < length (tokens s))%nat).
  { intros N. destruct (Z.eqb_spec c 1) as [->|Hc]; [tauto|].
    pose proof (occurrences_nonneg p (tokens s)).
    pose proof (occurrences_merges p (tokens s)). lia. }
  split; [split; [|exact B]|].
  - intros ->. destruct (Z.eq_dec c 1) as [Hc|Hc]; [now left|].
    destruct (Z.eq_dec (occurrences p (tokens s)) 0) as [H0|H0]; [now right|].
    assert ((length (tokens s) < length (tokens s))%nat); [|lia].
    apply F. tauto.
  - intros N. destruct (Z.eq_dec c 1) as [Hc|Hc]; [exfalso; auto|].
    destruct (Z.eq_dec (occurrences p (tokens s)) 0) as [H0|H0];
      [exfalso; auto|].
    apply F. tauto.
Qed.

Lemma step_fixed_point_witness :
  (nul_state = nul_state <->
   2 = 1 \/ occurrences (mkPair 98 0) (tokens nul_state) = 0) /\
  (nul_state <> nul_state ->
   (length (tokens nul_state) < length (tokens nul_state))%nat).
Proof.
  apply (step_fixed_point nul_state nul_state (mkPair 98 0) 2).
  - reflexivity.
  - exact step_nul_state.
Defined.

(** ** What one step does to the sequence *)

Lemma rewrite_tokens ptr old : forall nt f m,
  fst (fst (rewrite ptr old nt f m))
  = nt ++ replace_pairs ptr (fst (create_or_get_pair m ptr)) old.
Proof.
  induction old as [|a|a b old IH1 IH2] using list_pair_ind; intros nt f m.
  - simpl. now rewrite app_nil_r.
  - reflexivity.
  - destruct (pair_eqb (mkPair a b) ptr) eqn:E.
    + pose proof E as E'. apply pair_eqb_eq in E'.
      rewrite (rewrite_merge _ _ _ _ _ _ _ E'), IH2.
      rewrite create_or_get_pair_twice, <- app_assoc.
      cbn [replace_pairs]. rewrite E. reflexivity.
    + pose proof E as E'. apply pair_eqb_neq in E'.
      rewrite (rewrite_keep _ _ _ _ _ _ _ E'), IH1, <- app_assoc.
      cbn [replace_pairs]. rewrite E. reflexivity.
Qed.

Lemma rewrite_map ptr old : forall nt f m,
  (1 <= merges ptr old)%nat ->
  snd (rewrite ptr old nt f m) = snd (create_or_get_pair m ptr).
Proof.
  induction old as [|a|a b old IH1 IH2] using list_pair_ind; intros nt f m.
  - simpl. lia.
  - simpl. lia.
  - destruct (pair_eqb (mkPair a b) ptr) eqn:E.
    + apply pair_eqb_eq in E. intros _.
      rewrite (rewrite_merge _ _ _ _ _ _ _ E).
      destruct (merges ptr old) eqn:Em.
      * rewrite (rewrite_no_merge _ _ _ _ _ Em). reflexivity.
      * rewrite IH2 by lia. now rewrite create_or_get_pair_twice.
    + apply pair_eqb_neq in E.
      rewrite (merges_keep _ _ _ _ E), (rewrite_keep _ _ _ _ _ _ _ E).
      apply IH1.
Qed.

(** X8. A step that does not return early replaces the occurrences of the
    chosen pair from left to right, without overlap, and every one of
    them by the same id: the one [create_or_get_pair] gives on the input
    map. If there is an occurrence, the new map is the map that call
    leaves; if there is none, map and table are the input's. *)
Theorem step_replaces s s' p c :
  most_used (frequencies s) = Ok (p, c) -> c <> 1 -> step s = Ok s' ->
  tokens s'
  = replace_pairs p (fst (create_or_get_pair (token_map s) p)) (tokens s) /\
  ((1 <= merges p (tokens s))%nat ->
   token_map s' = snd (create_or_get_pair (token_map s) p)) /\
  (merges p (tokens s) = O ->
   token_map s' = token_map s /\ frequencies s' = frequencies s).
Proof.
  intros Hm Hc Hs. unfold step in Hs. rewrite Hm in Hs.
  apply Z.eqb_neq in Hc. rewrite Hc in Hs.
  pose proof (rewrite_tokens p (tokens s) [] (frequencies s) (token_map s)) as T.
  pose proof (rewrite_map p (tokens s) [] (frequencies s) (token_map s)) as M.
  pose proof (rewrite_no_merge p (tokens s) [] (frequencies s) (token_map s)) as Z.
  destruct (rewrite p (tokens s) [] (frequencies s) (token_map s))
    as [[nt f'] m'].
  inversion Hs; subst s'; simpl in *.
  split; [exact T|]. split; [exact M|].
  intros H0. specialize (Z H0). inversion Z. auto.
Qed.

Lemma step_replaces_witness :
  let s := from_text [97; 97; 97; 97; 97] in
  let s' := mkState [256; 256; 97]
              [(mkPair 97 97, 0); (mkPair 256 97, 1); (mkPair 256 256, 1)]
              (base_map 256 ++ [(256, Merged (mkPair 97 97))]) in
  tokens s'
  = replace_pairs (mkPair 97 97)
      (fst (create_or_get_pair (token_map s) (mkPair 97 97))) (tokens s) /\
  ((1 <= merges (mkPair 97%Z 97%Z) (tokens s))%nat ->
   token_map s' = snd (create_or_get_pair (token_map s) (mkPair 97 97))) /\
  (merges (mkPair 97 97) (tokens s) = O ->
   token_map s' = token_map s /\ frequencies s' = frequencies s).
Proof.
  intros s s'. apply (step_replaces s s' (mkPair 97 97) 4).
  - reflexivity.
  - lia.
  - vm_compute. reflexivity.
Defined.

Lemma replace_pairs_head p k b toks :
  hd_error (replace_pairs p k (b :: toks)) = Some b \/
  hd_error (replace_pairs p k (b :: toks)) = Some k.
Proof.
  destruct toks as [|c toks]; [now left|].
  cbn [replace_pairs]. destruct (pair_eqb (mkPair b c) p); auto.
Qed.

Lemma occurrences_cons q a toks :
  occurrences q (a :: toks)
  = boundary q (Some a) (hd_error toks) + occurrences q toks.
Proof. destruct toks as [|b toks]; reflexivity. Qed.

Lemma replace_pairs_merge p k a b toks :
  pair_eqb (mkPair a b) p = true ->
  replace_pairs p k (a :: b :: toks) = k :: replace_pairs p k toks.
Proof. intros E. cbn [replace_pairs]. now rewrite E. Qed.

Lemma replace_pairs_keep p k a b toks :
  pair_eqb (mkPair a b) p = false ->
  replace_pairs p k (a :: b :: toks) = a :: replace_pairs p k (b :: toks).
Proof. intros E. cbn [replace_pairs]. now rewrite E. Qed.

(** Once replaced by an id that is neither of its components, a pair
    occurs nowhere. *)
Lemma replace_pairs_clears p k toks :
  k <> left p -> k <> right p ->
  occurrences p (replace_pairs p k toks) = 0.
Proof.
  intros Hl Hr.
  induction toks as [|a|a b toks IH1 IH2] using list_pair_ind;
    [reflexivity | reflexivity |].
  destruct (pair_eqb (mkPair a b) p) eqn:E;
    [rewrite (replace_pairs_merge _ _ _ _ _ E)
    |rewrite (replace_pairs_keep _ _ _ _ _ E)].
  - rewrite occurrences_cons, IH2.
    destruct (hd_error (replace_pairs p k toks)) as [r|]; cbn [boundary]; [|lia].
    destruct (pair_eqb (mkPair k r) p) eqn:E'; [|lia].
    apply pair_eqb_eq in E'. subst p. simpl in Hl. congruence.
  - rewrite occurrences_cons, IH1.
    destruct (replace_pairs_head p k b toks) as [H|H]; rewrite H; cbn [boundary].
    + rewrite E. lia.
    + destruct (pair_eqb (mkPair a k) p) eqn:E'; [|lia].
      apply pair_eqb_eq in E'. subst p. simpl in Hr. congruence.
Qed.

Lemma occurrences_In p toks :
  0 < occurrences p toks -> In (left p) toks /\ In (right p) toks.
Proof.
  induction toks as [|a toks IH]; [simpl; lia|].
  rewrite occurrences_cons. destruct toks as [|b toks]; [simpl; lia|].
  cbn [hd_error boundary]. destruct (pair_eqb (mkPair a b) p) eqn:E.
  - apply pair_eqb_eq in E. subst p. simpl. auto.
  - intros H. destruct IH as [H1 H2]; [lia|]. split; now right.
Qed.

(** X10. In a run on a text of code points below 256, a step that does
    not return early leaves no occurrence of the chosen pair in the
    token sequence. *)
Theorem step_clears_pair text s s' p c :
  byte_text text -> reachable text s ->
  most_used (frequencies s) = Ok (p, c) -> c <> 1 -> step s = Ok s' ->
  occurrences p (tokens s') = 0.
Proof.
  intros B H Hm Hc Hs.
  destruct (reachable_decodes _ _ B H) as [W D].
  pose proof W as (R & Ord & _).
  unfold step in Hs. rewrite Hm in Hs.
  apply Z.eqb_neq in Hc. rewrite Hc in Hs.
  pose proof (rewrite_tokens p (tokens s) [] (frequencies s) (token_map s)) as T.
  destruct (rewrite p (tokens s) [] (frequencies s) (token_map s))
    as [[nt f'] m'].
  inversion Hs; subst s'; simpl in *. subst nt.
  destruct (Z.eq_dec (occurrences p (tokens s)) 0) as [H0|H0].
  - pose proof (merges_occurrences p (tokens s)) as Hmo.
    assert (Hz : merges p (tokens s) = O) by lia.
    pose proof (rewrite_tokens p (tokens s) [] [] (token_map s)) as T'.
    rewrite (rewrite_no_merge _ _ _ _ _ Hz) in T'. simpl in T'.
    rewrite <- T'. exact H0.
  - pose proof (occurrences_nonneg p (tokens s)).
    destruct (occurrences_In p (tokens s)) as [Il Ir]; [lia|].
    assert (Bl : left p < len (token_map s)).
    { destruct (expands_all_In _ _ _ _ D Il) as [ys Hy].
      destruct (expands_key _ _ _ Hy) as [v Hv].
      apply (range_keys_get _ _ _ R Hv). }
    assert (Br : right p < len (token_map s)).
    { destruct (expands_all_In _ _ _ _ D Ir) as [ys Hy].
      destruct (expands_key _ _ _ Hy) as [v Hv].
      apply (range_keys_get _ _ _ R Hv). }
    destruct (create_or_get_pair (token_map s) p) as [k m1] eqn:Ec.
    destruct (create_or_get_pair_range _ _ _ _ R Ec) as [Hk Hm1].
    assert (Hgt : left p < k /\ right p < k).
    { destruct Hm1 as [ -> | (_ & -> & _) ]; [|lia].
      apply (dict_get_In _ Z.eqb_eq) in Hk. destruct (Ord _ _ Hk). lia. }
    simpl. apply replace_pairs_clears; lia.
Qed.

Lemma step_clears_pair_witness :
  occurrences (mkPair 97 97)
    (tokens (mkState [256; 97]
               [(mkPair 97 97, 0); (mkPair 256 97, 1)]
               (base_map 256 ++ [(256, Merged (mkPair 97 97))]))) = 0.
Proof.
  apply (step_clears_pair [97; 97; 97] (from_text [97; 97; 97]) _
           (mkPair 97 97) 2).
  - repeat constructor; lia.
  - apply reach_init.
  - reflexivity.
  - lia.
  - vm_compute. reflexivity.
Defined.

(** ** The sum of the counts *)

Lemma total_dict_set f p v :
  total (dict_set pair_eqb f p v) = total f - counter_get f p + v.
Proof.
  unfold counter_get. induction f as [|[k0 v0] f IH]; simpl; [lia|].
  destruct (pair_eqb k0 p); simpl; [lia|]. rewrite IH. lia.
Qed.

Lemma total_counter_add f p d : total (counter_add f p d) = total f + d.
Proof. unfold counter_add. rewrite total_dict_set. lia. Qed.

(** Whatever the neighbours, one call takes exactly 1 off the sum. *)
Lemma total_account f l p r n :
  total (account_for_substitution f l p r n) = total f - 1.
Proof.
  unfold account_for_substitution.
  destruct (truthy l), (truthy r); rewrite ?total_counter_add; lia.
Qed.

Lemma total_Counter ps : total (Counter ps) = Z.of_nat (length ps).
Proof.
  unfold Counter.
  assert (H : forall f, total (fold_left (fun f p => counter_add f p 1) ps f)
                        = total f + Z.of_nat (length ps)).
  { induction ps as [|p ps IH]; intros f; simpl length; simpl fold_left; [lia|].
    rewrite IH, total_counter_add. lia. }
  rewrite H. reflexivity.
Qed.

Lemma rewrite_total ptr old nt f m nt' f' m' :
  rewrite ptr old nt f m = (nt', f', m') ->
  total f' - Z.of_nat (length nt') = total f - Z.of_nat (length nt + length old).
Proof.
  intros E.
  pose (Inv := fun (old0 nt0 : list TokenId) (f0 : Frequencies) (_ : TokenMap) =>
    total f0 - Z.of_nat (length nt0 + length old0)
    = total f - Z.of_nat (length nt + length old)).
  assert (H : Inv [] nt' f' m').
  { refine (rewrite_invariant ptr Inv _ _ _ old nt f m _ nt' f' m' E);
      unfold Inv; try reflexivity.
    - intros t0 t1 old2 nt0 f0 _ H _. rewrite <- H, length_app. simpl. lia.
    - intros t0 t1 old2 nt0 f0 _ k _ H _ _.
      rewrite total_account, <- H, length_app. simpl. lia.
    - intros t nt0 f0 _ H. rewrite <- H, length_app. simpl. lia. }
  unfold Inv in H. simpl in H. rewrite Nat.add_0_r in H. exact H.
Qed.

(** X9. In every state reachable from a non-empty text, whatever its
    characters, the counts of the table add up to the length of the
    token sequence minus one. *)
Theorem total_counts text s :
  text <> [] -> reachable text s ->
  total (frequencies s) = len (tokens s) - 1.
Proof.
  intros N. induction 1 as [|s s' _ IH Hs].
  - simpl. rewrite total_Counter, pairwise_length. unfold len.
    destruct text; [congruence|]. simpl length. lia.
  - apply step_Ok in Hs. destruct Hs as (p & c & _ & [ [_ ->] | [_ Hs] ]);
      [exact IH|].
    apply rewrite_total in Hs. simpl in Hs. unfold len in *. lia.
Qed.

Lemma total_counts_witness :
  total (frequencies nul_state) = len (tokens nul_state) - 1.
Proof.
  apply (total_counts nul_text nul_state).
  - discriminate.
  - apply reach_step with (s := from_text nul_text);
      [apply reach_init | exact step_nul_text].
Defined.

(** ** What a successful decoding says *)

(** A stack walk that returns has walked finite trees. *)
Lemma expand_loop_Ok m fuel : forall to_process characters r,
  expand_loop fuel m to_process characters = Ok r ->
  exists xs, expands_all m to_process xs /\ r = characters ++ xs.
Proof.
  induction fuel as [|fuel IH]; intros st cs r.
  - destruct st; simpl; [|discriminate].
    intros H; inversion H. exists []. split; [constructor|now rewrite app_nil_r].
  - destruct st as [|k st]; simpl.
    + intros H; inversion H. exists []. split; [constructor|now rewrite app_nil_r].
    + destruct (map_get m k) as [[c|p]|] eqn:Hk; [| |discriminate].
      * destruct (chr c) as [ch|] eqn:Hc; [|discriminate].
        intros H. destruct (IH _ _ _ H) as (xs & Hx & ->).
        exists ([ch] ++ xs). split; [|now rewrite app_assoc].
        constructor; [eapply expands_leaf; eauto | exact Hx].
      * intros H. destruct (IH _ _ _ H) as (xs & Hx & ->).
        inversion Hx as [|? ? ys0 zs0 H0 Hx1]; subst.
        inversion Hx1 as [|? ? ys1 zs1 H1 Hx2]; subst.
        exists ((ys0 ++ ys1) ++ zs1). split; [|now rewrite <- app_assoc].
        constructor; [eapply expands_pair; eauto | exact Hx2].
Qed.

Lemma expand_token_Ok m fuel k xs :
  _expand_token fuel m k = Ok xs -> expands m k xs.
Proof.
  intros H. apply expand_loop_Ok in H. destruct H as (ys & Hy & ->).
  inversion Hy as [|? ? ys0 zs0 H0 Hn]; subst. inversion Hn; subst.
  simpl. now rewrite app_nil_r.
Qed.

Lemma to_text_loop_Ok m fuel toks : forall characters r,
  to_text_loop fuel m toks characters = Ok r ->
  exists xs, expands_all m toks xs /\ r = characters ++ xs.
Proof.
  induction toks as [|k toks IH]; intros cs r; simpl.
  - intros H; inversion H. exists []. split; [constructor|now rewrite app_nil_r].
  - destruct (_expand_token fuel m k) as [ys| |] eqn:Hk; try discriminate.
    intros H. destruct (IH _ _ H) as (xs & Hx & ->).
    exists (ys ++ xs). split; [|now rewrite app_assoc].
    constructor; [exact (expand_token_Ok _ _ _ _ Hk) | exact Hx].
Qed.

Lemma to_text_Ok fuel s text :
  to_text fuel s = Ok text -> expands_all (token_map s) (tokens s) text.
Proof.
  intros H. apply to_text_loop_Ok in H. destruct H as (xs & Hx & ->). exact Hx.
Qed.

Lemma expands_nonempty m k xs : expands m k xs -> xs <> [].
Proof.
  induction 1 as [|k p xs ys _ _ IH1 _ _]; [discriminate|].
  destruct xs; [congruence|discriminate].
Qed.

Lemma expands_all_length m ks xs :
  expands_all m ks xs -> (length ks <= length xs)%nat.
Proof.
  induction 1 as [|k ks xs ys Hk _ IH]; [simpl; lia|].
  apply expands_nonempty in Hk. rewrite length_app.
  destruct xs; [congruence|]. simpl. lia.
Qed.

(** X11. When [to_text] returns, the text has at least as many
    characters as the state has tokens: no token decodes to nothing. *)
Theorem to_text_not_shorter fuel s text :
  to_text fuel s = Ok text -> (length (tokens s) <= length text)%nat.
Proof.
  intros H. exact (expands_all_length _ _ _ (to_text_Ok _ _ _ H)).
Qed.

Lemma to_text_not_shorter_witness :
  let s := mkState [256; 97] []
             (base_map 256 ++ [(256, Merged (mkPair 97 97))]) in
  let text : list Z := [97; 97; 97] in
  (length (tokens s) <= length text)%nat.
Proof.
  intros s text. apply (to_text_not_shorter 3 s text). vm_compute. reflexivity.
Defined.

(** X12. The expansion of a merged id is the expansion of the left id of
    its pair followed by the expansion of the right one. *)
Theorem expand_token_pair m k p fuel1 fuel2 xs ys :
  map_get m k = Some (Merged p) ->
  _expand_token fuel1 m (left p) = Ok xs ->
  _expand_token fuel2 m (right p) = Ok ys ->
  exists n, forall fuel, (n <= fuel)%nat ->
    _expand_token fuel m k = Ok (xs ++ ys).
Proof.
  intros Hk Hl Hr. apply expand_token_expands.
  eapply expands_pair; [exact Hk | |]; eapply expand_token_Ok; eauto.
Qed.

Lemma expand_token_pair_witness :
  exists n, forall fuel, (n <= fuel)%nat ->
    _expand_token fuel
      (base_map 256 ++ [(256, Merged (mkPair 104 105));
                        (257, Merged (mkPair 256 33))]) 257
    = Ok ([104; 105] ++ [33]).
Proof.
  apply (expand_token_pair _ 257 (mkPair 256 33) 3 1);
    vm_compute; reflexivity.
Defined.

(** The pass keeps the decoded text, on any table with ids
    [0 .. len - 1]. *)
Lemma rewrite_keeps_text text ptr old nt f m nt' f' m' :
  range_keys m -> expands_all m (nt ++ old) text ->
  rewrite ptr old nt f m = (nt', f', m') ->
  range_keys m' /\ expands_all m' nt' text.
Proof.
  intros R D E.
  pose (Inv := fun (old0 nt0 : list TokenId) (_ : Frequencies) (m0 : TokenMap) =>
    range_keys m0 /\ expands_all m0 (nt0 ++ old0) text).
  assert (H : Inv [] nt' f' m').
  { refine (rewrite_invariant ptr Inv _ _ _ old nt f m _ nt' f' m' E);
      unfold Inv; auto.
    - intros t0 t1 old2 nt0 _ m0 [R0 D0] _. split; [exact R0|].
      rewrite <- app_assoc. exact D0.
    - intros t0 t1 old2 nt0 _ m0 k m1 [R0 D0] Ep Hc.
      destruct (create_or_get_pair_range _ _ _ _ R0 Hc) as [Hk Hm].
      destruct (expands_all_app_inv _ _ _ _ D0) as (xs1 & xs2 & -> & D1 & D2).
      inversion D2 as [|? ? ys0 zs0 H0 D3]; subst.
      inversion D3 as [|? ? ys1 zs1 H1 D4]; subst.
      assert (X : range_keys m1 /\ extends m0 m1).
      { destruct Hm as [ -> | (_ & _ & ->) ].
        - split; [exact R0 | apply extends_refl].
        - split; [apply range_keys_snoc | apply extends_snoc]; exact R0. }
      destruct X as [R1 X]. split; [exact R1|].
      rewrite <- app_assoc. apply expands_all_app.
      + exact (expands_all_extends _ _ _ _ X D1).
      + simpl. rewrite app_assoc. constructor.
        * eapply expands_pair; [exact Hk | |]; simpl;
            eapply expands_extends; eauto.
        * exact (expands_all_extends _ _ _ _ X D4).
    - intros t nt0 _ m0 [R0 D0]. split; [exact R0|].
      rewrite <- app_assoc. exact D0. }
  unfold Inv in H. now rewrite app_nil_r in H.
Qed.

(** X13. On any state whose token map has the ids [0 .. len - 1], [step]
    keeps what the state decodes to: if [to_text] returns a text before
    the step, it returns the same text after it. *)
Theorem step_keeps_text fuel s s' text :
  range_keys (token_map s) ->
  to_text fuel s = Ok text -> step s = Ok s' ->
  range_keys (token_map s') /\
  exists n, forall fuel', (n <= fuel')%nat -> to_text fuel' s' = Ok text.
Proof.
  intros R Ht Hs. apply to_text_Ok in Ht. apply step_Ok in Hs.
  destruct Hs as (p & c & _ & [ [_ ->] | [_ Hs] ]).
  - split; [exact R | apply to_text_expands; exact Ht].
  - destruct (rewrite_keeps_text text p (tokens s) [] _ _ _ _ _ R Ht Hs)
      as [R' D'].
    split; [exact R' | apply to_text_expands; exact D'].
Qed.

Lemma step_keeps_text_witness :
  let s' := mkState [256; 256]
              [(mkPair 97 97, 0); (mkPair 256 97, 0); (mkPair 256 256, 1)]
              (base_map 256 ++ [(256, Merged (mkPair 97 97))]) in
  range_keys (token_map s') /\
  exists n, forall fuel', (n <= fuel')%nat ->
    to_text fuel' s' = Ok [97; 97; 97; 97].
Proof.
  intros s'. apply (step_keeps_text 1 (from_text [97; 97; 97; 97]) s').
  - apply base_map_range.
  - vm_compute. reflexivity.
  - vm_compute. reflexivity.
Defined.

(** ** What the loop of [main] returns *)

Lemma training_loop_Ok text fuel : forall s s',
  reachable text s -> training_loop fuel s = Ok s' ->
  reachable text s' /\
  exists p c, most_used (frequencies s') = Ok (p, c) /\ c <= 1.
Proof.
  induction fuel as [|fuel IH]; intros s s' H; [discriminate|].
  cbn [training_loop].
  destruct (most_used (frequencies s)) as [[p c]|e|] eqn:Hm; try discriminate.
  destruct (Z.gtb_spec c 1) as [Hc|Hc].
  - destruct (step s) as [s1|e|] eqn:Hs; try discriminate.
    apply IH. exact (reach_step _ _ _ H Hs).
  - intros E. inversion E; subst s'. split; [exact H|]. eauto.
Qed.

Lemma most_used_bounds f p c q :
  most_used f = Ok (p, c) -> 0 <= c -> counter_get f q <= c.
Proof.
  intros H Hc. unfold counter_get.
  destruct (dict_get pair_eqb f q) as [d|] eqn:E; [|exact Hc].
  apply (dict_get_In _ pair_eqb_eq) in E.
  destruct f as [|x f]; [discriminate|].
  unfold most_used, most_common_1 in H.
  assert (Em : max_first x f = (p, c)) by congruence.
  destruct (max_first_split _ _ _ Em) as (b & a & Eq & Hb & Ha).
  rewrite Eq in E. apply in_app_or in E. destruct E as [E|[E|E]].
  - specialize (Hb _ E). simpl in Hb. lia.
  - inversion E. lia.
  - exact (Ha _ E).
Qed.

(** X14. When the loop of [main] returns on a text without the character
    of code point 0, the state it returns is reachable by steps and no
    adjacent pair occurs twice in its token sequence. *)
Theorem training_loop_no_repeat text fuel s :
  without_zero text -> training_loop fuel (from_text text) = Ok s ->
  reachable text s /\ forall q, occurrences q (tokens s) <= 1.
Proof.
  intros W H.
  destruct (training_loop_Ok text fuel _ _ (reach_init text) H)
    as (Hr & p & c & Hm & Hc).
  split; [exact Hr|]. intros q.
  destruct (reachable_counted _ _ W Hr) as (_ & _ & N & _ & C). simpl in C.
  rewrite <- C.
  assert (Hp : 0 <= c).
  { rewrite <- (most_used_count _ _ _ N Hm), C. apply occurrences_nonneg. }
  destruct (Z.eq_dec c 1) as [->|Hn].
  - exact (most_used_bounds _ _ _ q Hm Hp).
  - pose proof (most_used_bounds _ _ _ q Hm Hp). lia.
Qed.

Lemma training_loop_no_repeat_witness :
  let s := mkState [256; 257; 257]
    [(mkPair 97 97, 0); (mkPair 97 98, 0); (mkPair 98 97, 0);
     (mkPair 256 97, 0); (mkPair 256 256, 0); (mkPair 256 98, 0);
     (mkPair 98 256, 0); (mkPair 256 257, 1); (mkPair 257 256, 0);
     (mkPair 257 257, 1)]
    (base_map 256 ++ [(256, Merged (mkPair 97 97));
                      (257, Merged (mkPair 256 98))]) in
  reachable [97; 97; 97; 97; 98; 97; 97; 98] s /\
  forall q, occurrences q (tokens s) <= 1.
Proof.
  intros s. apply (training_loop_no_repeat _ 5 s).
  - repeat constructor; lia.
  - vm_compute. reflexivity.
Defined.

(** X15. When the loop of [main] returns on a text of code points below
    256, [to_text] of the returned state is the text, and the returned
    sequence is not longer than the text. *)
Theorem training_loop_lossless text fuel s :
  byte_text text -> training_loop fuel (from_text text) = Ok s ->
  (exists n, forall fuel', (n <= fuel')%nat -> to_text fuel' s = Ok text) /\
  (length (tokens s) <= length text)%nat.
Proof.
  intros B H.
  destruct (training_loop_Ok text fuel _ _ (reach_init text) H) as (Hr & _).
  destruct (reachable_decodes _ _ B Hr) as [_ D].
  split; [apply to_text_expands; exact D | exact (expands_all_length _ _ _ D)].
Qed.

Lemma training_loop_lossless_witness :
  let s := mkState [256; 256]
              [(mkPair 97 97, 0); (mkPair 256 97, 0); (mkPair 256 256, 1)]
              (base_map 256 ++ [(256, Merged (mkPair 97 97))]) in
  let text : list Z := [97; 97; 97; 97] in
  (exists n, forall fuel', (n <= fuel')%nat -> to_text fuel' s = Ok text) /\
  (length (tokens s) <= length text)%nat.
Proof.
  intros s text. apply (training_loop_lossless text 3 s).
  - repeat constructor; lia.
  - vm_compute. reflexivity.
Defined.

(** ** [print_tokens] *)

Lemma bytes_then_pairs_base : bytes_then_pairs (base_map 256).
Proof. exists []. split; [now rewrite app_nil_r | constructor]. Qed.

Lemma bytes_then_pairs_snoc m p :
  bytes_then_pairs m -> bytes_then_pairs (m ++ [(len m, Merged p)]).
Proof.
  intros (later & -> & F). exists (later ++ [(len (base_map 256 ++ later), Merged p)]).
  split; [now rewrite app_assoc|].
  apply Forall_app. split; [exact F|]. constructor; [exact I|constructor].
Qed.

Lemma reachable_bytes_then_pairs text s :
  reachable text s -> bytes_then_pairs (token_map s).
Proof.
  intros H. pose proof (reachable_table _ _ H) as [R Inj].
  induction H as [|s s' H IH Hs].
  - apply bytes_then_pairs_base.
  - destruct (reachable_table _ _ H) as [R0 I0].
    destruct (step_table _ _ R0 I0 Hs) as (_ & _ & [E|[p E]]); rewrite E.
    + exact (IH R0 I0).
    + apply bytes_then_pairs_snoc. exact (IH R0 I0).
Qed.

Lemma bytes_then_pairs_leaf m k :
  bytes_then_pairs m -> 0 <= k < 256 -> map_get m k = Some (Leaf k).
Proof.
  intros (later & -> & _) Hk. unfold map_get. rewrite dict_get_app.
  fold (map_get (base_map 256) k). now rewrite (base_map_get 256 k Hk).
Qed.

Lemma bytes_then_pairs_merged m k :
  range_keys m -> bytes_then_pairs m -> 256 <= k < len m ->
  exists p, map_get m k = Some (Merged p).
Proof.
  intros R (later & E & F) Hk.
  destruct (range_keys_has m k R) as [v Hv]; [lia|].
  pose proof (dict_get_In _ Z.eqb_eq _ _ _ Hv) as Hin.
  rewrite E in Hin. apply in_app_or in Hin. destruct Hin as [Hin|Hin].
  - apply base_map_In in Hin. lia.
  - rewrite Forall_forall in F. specialize (F _ Hin).
    unfold is_merged in F. simpl in F. destruct v as [c|p]; [contradiction|].
    eauto.
Qed.

Lemma shown_byte t : t < 256 -> shown t = [t].
Proof. intros H. unfold shown. apply Z.ltb_lt in H. now rewrite H. Qed.

Lemma shown_id t : 256 <= t -> shown t = [40] ++ str_int t ++ [41].
Proof. intros H. unfold shown. apply Z.ltb_ge in H. now rewrite H. Qed.

Section PrintFacts.
Variable encodable : Z -> bool.

Lemma write_encodable out s :
  forallb encodable s = true -> write encodable out s = (out ++ s, None).
Proof. intros H. unfold write. now rewrite H. Qed.

Lemma print_encodable out s :
  forallb encodable s = true -> print encodable out s [] = (out ++ s, None).
Proof.
  intros H. unfold print. rewrite (write_encodable _ _ H).
  unfold write. simpl. now rewrite app_nil_r.
Qed.

Lemma print_tokens_loop_shown m toks : forall out,
  range_keys m -> bytes_then_pairs m ->
  (forall t, In t toks -> 0 <= t < len m) ->
  forallb encodable (flat_map shown toks) = true ->
  print_tokens_loop encodable m toks out = (out ++ flat_map shown toks, None).
Proof.
  induction toks as [|t toks IH]; intros out R B H E; cbn [print_tokens_loop].
  - simpl. now rewrite app_nil_r.
  - assert (Ht : 0 <= t < len m) by (apply H; now left).
    cbn [flat_map] in E. rewrite forallb_app in E.
    apply andb_true_iff in E. destruct E as [E1 E2].
    assert (H' : forall t', In t' toks -> 0 <= t' < len m)
      by (intros; apply H; now right).
    cbn [flat_map]. destruct (Z.ltb_spec t 256) as [Hlt|Hge].
    + rewrite (shown_byte t Hlt) in *.
      rewrite (bytes_then_pairs_leaf m t B) by lia.
      rewrite chr_byte by lia. rewrite (print_encodable _ _ E1).
      rewrite (IH _ R B H' E2). now rewrite <- app_assoc.
    + rewrite (shown_id t Hge) in *.
      destruct (bytes_then_pairs_merged m t R B) as [p Hp]; [lia|].
      rewrite Hp, (print_encodable _ _ E1).
      rewrite (IH _ R B H' E2). now rewrite <- app_assoc.
Qed.

(** X16. Take a state of a run on a text of code points below 256, and
    let the expected output be the line [Tokens:], the opening quotes,
    each token below 256 as its character and each merged token as its
    decimal id in parentheses, a line break and the closing quotes. If
    [sys.stdout] can encode every character of the expected output,
    [print_tokens] raises nothing and prints exactly that. *)
Theorem print_tokens_shows text s :
  byte_text text -> reachable text s ->
  forallb encodable
    ([84; 111; 107; 101; 110; 115; 58; 10; 34; 34; 34; 10]
       ++ flat_map shown (tokens s) ++ [10; 34; 34; 34; 10]) = true ->
  print_tokens encodable s
  = ([84; 111; 107; 101; 110; 115; 58; 10; 34; 34; 34; 10]
       ++ flat_map shown (tokens s) ++ [10; 34; 34; 34; 10],
     None).
Proof.
  intros B H E. destruct (reachable_decodes _ _ B H) as [(R & _) D].
  rewrite !forallb_app in E. apply andb_true_iff in E. destruct E as [E1 E].
  apply andb_true_iff in E. destruct E as [E2 E3].
  change [84; 111; 107; 101; 110; 115; 58; 10; 34; 34; 34; 10]
    with ([84; 111; 107; 101; 110; 115; 58; 10; 34; 34; 34] ++ [10]) in E1.
  change [10; 34; 34; 34; 10] with ([10; 34; 34; 34] ++ [10]) in E3.
  rewrite forallb_app in E1, E3.
  apply andb_true_iff in E1, E3. destruct E1 as [E1 E1'], E3 as [E3 E3'].
  unfold print_tokens, print.
  rewrite (write_encodable _ _ E1), (write_encodable _ _ E1').
  rewrite print_tokens_loop_shown; auto.
  - rewrite (write_encodable _ _ E3), (write_encodable _ _ E3').
    simpl. rewrite <- !app_assoc. reflexivity.
  - exact (reachable_bytes_then_pairs _ _ H).
  - intros t Ht. destruct (expands_all_In _ _ _ _ D Ht) as [ys Hy].
    destruct (expands_key _ _ _ Hy) as [v Hv].
    exact (range_keys_get _ _ _ R Hv).
Qed.

Lemma print_tokens_loop_stops before c after : forall out,
  byte_text before -> forallb encodable before = true ->
  (256 <= c ->
   print_tokens_loop encodable (base_map 256) (before ++ c :: after) out
   = (out ++ before, Some (Raised KeyError))) /\
  (0 <= c < 256 -> encodable c = false ->
   print_tokens_loop encodable (base_map 256) (before ++ c :: after) out
   = (out ++ before, Some UnicodeEncodeError)).
Proof.
  induction before as [|t before IH]; intros out B E.
  - cbn [app print_tokens_loop]. rewrite app_nil_r. split.
    + intros Hc. replace (map_get (base_map 256) c) with (@None Mapping);
        [reflexivity|].
      symmetry. apply (dict_get_None _ Z.eqb_eq). intros Hin.
      apply (range_keys_In _ _ (base_map_range 256)) in Hin.
      unfold len in Hin. rewrite base_map_length in Hin. lia.
    + intros Hc Hn. rewrite (base_map_get 256 c Hc), (chr_byte c Hc).
      unfold print, write. simpl. rewrite Hn. reflexivity.
  - inversion B as [|? ? Ht B']; subst.
    cbn [forallb] in E. apply andb_true_iff in E. destruct E as [Et E'].
    cbn [app print_tokens_loop].
    rewrite (base_map_get 256 t Ht), (chr_byte t Ht).
    rewrite print_encodable by (simpl; now rewrite Et).
    destruct (IH (out ++ [t]) B' E') as [I1 I2]. split.
    + intros Hc. rewrite (I1 Hc), <- app_assoc. reflexivity.
    + intros Hc Hn. rewrite (I2 Hc Hn), <- app_assoc. reflexivity.
Qed.

(** X17. Take [from_text] of a text that starts with characters of code
    points below 256 which [sys.stdout] can encode, as it can the header.
    If the next character has a code point of 256 or more, [print_tokens]
    prints the header and the characters before it, then raises
    [KeyError]; if the next character is below 256 and [sys.stdout]
    cannot encode it, the same is printed and [print] raises
    [UnicodeEncodeError]. In both cases the closing line is not
    printed. *)
Theorem print_tokens_stops before c after :
  byte_text before ->
  forallb encodable
    ([84; 111; 107; 101; 110; 115; 58; 10; 34; 34; 34; 10] ++ before) = true ->
  (256 <= c ->
   print_tokens encodable (from_text (before ++ c :: after))
   = ([84; 111; 107; 101; 110; 115; 58; 10; 34; 34; 34; 10] ++ before,
      Some (Raised KeyError))) /\
  (0 <= c < 256 -> encodable c = false ->
   print_tokens encodable (from_text (before ++ c :: after))
   = ([84; 111; 107; 101; 110; 115; 58; 10; 34; 34; 34; 10] ++ before,
      Some UnicodeEncodeError)).
Proof.
  intros B E. rewrite forallb_app in E.
  apply andb_true_iff in E. destruct E as [E1 E2].
  change [84; 111; 107; 101; 110; 115; 58; 10; 34; 34; 34; 10]
    with ([84; 111; 107; 101; 110; 115; 58; 10; 34; 34; 34] ++ [10]) in E1.
  rewrite forallb_app in E1. apply andb_true_iff in E1. destruct E1 as [E1 E1'].
  unfold print_tokens, print. cbn [token_map tokens from_text].
  rewrite (write_encodable _ _ E1), (write_encodable _ _ E1').
  destruct (print_tokens_loop_stops before c after
              (([] ++ [84; 111; 107; 101; 110; 115; 58; 10; 34; 34; 34]) ++ [10])
              B E2) as [I1 I2].
  split.
  - intros Hc. rewrite (I1 Hc). reflexivity.
  - intros Hc Hn. rewrite (I2 Hc Hn). reflexivity.
Qed.
End PrintFacts.

Lemma print_tokens_shows_witness :
  print_tokens (fun c => c <? 128)
    (mkState [256; 97]
       [(mkPair 97 97, 0); (mkPair 256 97, 1)]
       (base_map 256 ++ [(256, Merged (mkPair 97 97))]))
  = ([84; 111; 107; 101; 110; 115; 58; 10; 34; 34; 34; 10]
       ++ flat_map shown [256; 97] ++ [10; 34; 34; 34; 10],
     None).
Proof.
  apply (print_tokens_shows (fun c => c <? 128) [97; 97; 97]).
  - repeat constructor; lia.
  - apply reach_step with (s := from_text [97; 97; 97]);
      [apply reach_init | vm_compute; reflexivity].
  - vm_compute. reflexivity.
Defined.

Lemma print_tokens_stops_witness :
  print_tokens (fun c => c <? 128) (from_text ([104; 105] ++ 233 :: [33]))
  = ([84; 111; 107; 101; 110; 115; 58; 10; 34; 34; 34; 10] ++ [104; 105],
     Some UnicodeEncodeError).
Proof.
  refine (proj2 (print_tokens_stops (fun c => c <? 128)
                   [104; 105] 233 [33] _ _) _ _).
  - repeat constructor; lia.
  - vm_compute. reflexivity.
  - lia.
  - reflexivity.
Defined.

(** ** The loop of [main] on the texts it can receive *)



